(** * firmata.py: acquisition loop, rate estimate, window selection and
    band powers

    A shallow embedding of [src/firmata.py].  Python floats are modelled as
    exact rationals ([Q]); the one NaN the program produces on purpose
    ([np.nan], line 88) is an explicit constructor, and the exceptions the
    arithmetic and indexing can raise are values of [result].  The clock
    ([time.time()]) and the sensor ([ain.read()]) are inputs of the loop: one
    [tick] per iteration carries what they returned. *)

From Stdlib Require Import List Bool Arith ZArith QArith Lia Lqa Sorted.
From Stdlib Require String.
Import String.StringSyntax.
Delimit Scope string_scope with string.
From Equations Require Import Equations.
Import ListNotations.

Open Scope Q_scope.

(** ** Python values and exceptions *)

Inductive exn : Type :=
| ZeroDivisionError
| IndexError
| OverflowError.

Inductive result (A : Type) : Type :=
| Ok (a : A)
| Raise (e : exn).
Arguments Ok {A} a.
Arguments Raise {A} e.

Definition bind {A B : Type} (r : result A) (k : A -> result B) : result B :=
  match r with
  | Ok a => k a
  | Raise e => Raise e
  end.

Notation "x <- r ;; k" := (bind r (fun x => k))
  (at level 61, r at next level, right associativity).

(** A float that may be [np.nan]. *)
Inductive fval : Type :=
| Num (q : Q)
| NaN.

(** [a < b] and [a <= b] on floats, as booleans. *)
Definition Qltb (a b : Q) : bool := negb (Qle_bool b a).
Definition Qleb (a b : Q) : bool := Qle_bool a b.

(** [max(a, b)] of Python: the first argument unless the second is larger. *)
Definition py_max (a b : Q) : Q := if Qltb a b then b else a.

(** [min(a, b)] on ints. *)
Definition py_min (a b : nat) : nat := if Nat.ltb b a then b else a.

(** [a / b] on Python floats: a zero divisor raises. *)
Definition py_div (a b : Q) : result Q :=
  if Qeq_bool b 0 then Raise ZeroDivisionError else Ok (a / b).

(** The longest sleep CPython converts to its clock type: [2^63 - 1]
    nanoseconds, in seconds. *)
Definition SLEEP_MAX : Q := 9223372036854775807 # 1000000000.

(** [time.sleep(seconds)] for [seconds >= 0]: a value beyond what fits the
    interpreter's clock type raises [OverflowError]. *)
Definition py_sleep (seconds : Q) : result unit :=
  if Qltb SLEEP_MAX seconds then Raise OverflowError else Ok tt.

(** [l[0]] and [l[-1]]: an empty list raises. *)
Definition getitem_first {A : Type} (l : list A) : result A :=
  match l with
  | [] => Raise IndexError
  | x :: _ => Ok x
  end.

Fixpoint getitem_last {A : Type} (l : list A) : result A :=
  match l with
  | [] => Raise IndexError
  | [x] => Ok x
  | _ :: l' => getitem_last l'
  end.

(** [len(l)] as a float operand. *)
Definition len_q {A : Type} (l : list A) : Q := inject_Z (Z.of_nat (length l)).

(** Truth value of a float ([if args.duration]) and of a list ([if ts]). *)
Definition truthy (x : Q) : bool := negb (Qeq_bool x 0).
Definition nonempty {A : Type} (l : list A) : bool :=
  match l with [] => false | _ => true end.

(** ** Rate estimate *)

(** Lines 85-88, the estimate shown in the plot's label:
    [if ts[-1] - ts[0] > 0: fs = (len(ts) - 1) / (ts[-1] - ts[0])
     else: fs = np.nan]. *)
Definition loop_fs (ts : list Q) : result fval :=
  t_last <- getitem_last ts ;;
  t_first <- getitem_first ts ;;
  if Qltb 0 (t_last - t_first)
  then fs <- py_div (len_q ts - 1) (t_last - t_first) ;; Ok (Num fs)
  else Ok NaN.

(** Lines 122-124, the summary after the loop:
    [if ts: fs = (len(ts) - 1) / (ts[-1] - ts[0]); print(...)].
    [None] when nothing is printed, otherwise the sample count and the rate. *)
Definition summary (ts : list Q) : result (option (nat * Q)) :=
  if nonempty ts
  then
    t_last <- getitem_last ts ;;
    t_first <- getitem_first ts ;;
    fs <- py_div (len_q ts - 1) (t_last - t_first) ;;
    Ok (Some (length ts, fs))
  else Ok None.

(** Strictly increasing and ascending timestamp sequences. *)
Fixpoint strictly_increasing (l : list Q) : Prop :=
  match l with
  | [] => True
  | x :: l' =>
      match l' with
      | [] => True
      | y :: _ => x < y /\ strictly_increasing l'
      end
  end.

Fixpoint ascending (l : list Q) : Prop :=
  match l with
  | [] => True
  | x :: l' =>
      match l' with
      | [] => True
      | y :: _ => x <= y /\ ascending l'
      end
  end.

(** ** Window selection *)

(** [np.searchsorted(a, key)] with the default [side='left']: numpy's binary
    search, [while lo < hi: mid = lo + (hi - lo) // 2;
    if a[mid] < key: lo = mid + 1 else: hi = mid]; the answer is [lo]. *)
Equations? binsearch_left (a : list Q) (key : Q) (lo hi : nat) : nat
  by wf (hi - lo)%nat lt :=
  binsearch_left a key lo hi with lt_dec lo hi := {
    | right _ := lo
    | left _ with Qltb (nth (lo + (hi - lo) / 2) a 0) key := {
        | true := binsearch_left a key (S (lo + (hi - lo) / 2)) hi
        | false := binsearch_left a key lo (lo + (hi - lo) / 2) } }.
Proof.
  all: pose proof (Nat.div_lt (hi - lo) 2) as Hhalf;
    change ((hi - lo) / 2)%nat with (fst (Nat.divmod (hi - lo) 1 0 1)) in Hhalf.
  all: lia.
Qed.

Definition searchsorted (a : list Q) (key : Q) : nat :=
  binsearch_left a key 0 (length a).

(** Lines 92-95: [w_start = tmax - args.window;
    idx0 = np.searchsorted(ts, max(0.0, w_start));
    yw = ys[idx0:]; tw = ts[idx0:]].  The result is the pair [(yw, tw)]. *)
Definition window_slice (ts ys : list Q) (tmax window : Q) : list Q * list Q :=
  let w_start := tmax - window in
  let idx0 := searchsorted ts (py_max 0 w_start) in
  (skipn idx0 ys, skipn idx0 ts).

(** ** Band power *)

(** Element-wise operation on two arrays of the same length. *)
Definition ew (f : Q -> Q -> Q) (a b : list Q) : list Q :=
  map (fun p => f (fst p) (snd p)) (combine a b).

(** [a.sum()]. *)
Definition np_sum (a : list Q) : Q := fold_left Qplus a 0.

(** [np.diff(x)]: [x[1:] - x[:-1]]. *)
Definition np_diff (x : list Q) : list Q := ew Qminus (tl x) (removelast x).

(** [np.trapz(y, x)]: [d = diff(x);
    (d * (y[1:] + y[:-1]) / 2.0).sum()]. *)
Definition np_trapz (y x : list Q) : Q :=
  let d := np_diff x in
  np_sum (map (fun v => v / 2) (ew Qmult d (ew Qplus (tl y) (removelast y)))).

(** [np.any(idx)]. *)
Definition np_any (idx : list bool) : bool := existsb (fun b => b) idx.

(** [a[idx]] for a boolean mask [idx]: the entries under a [True]; a mask of
    another length than [a] raises [IndexError]. *)
Fixpoint mask_select (idx : list bool) (a : list Q) : result (list Q) :=
  match idx, a with
  | [], [] => Ok []
  | b :: idx', x :: a' =>
      r <- mask_select idx' a' ;;
      Ok (if b then x :: r else r)
  | _, _ => Raise IndexError
  end.

(** [(freqs >= fmin) & (freqs <= fmax)]. *)
Definition in_band (fmin fmax f : Q) : bool := Qleb fmin f && Qleb f fmax.

Definition band_mask (freqs : list Q) (fmin fmax : Q) : list bool :=
  map (in_band fmin fmax) freqs.

(** Lines 19-23. *)
Definition bandpower (freqs psd : list Q) (fmin fmax : Q) : result Q :=
  let idx := band_mask freqs fmin fmax in
  if negb (np_any idx) then Ok 0
  else
    p <- mask_select idx psd ;;
    f <- mask_select idx freqs ;;
    Ok (np_trapz p f).

(** Lines 10-16. *)
Definition BANDS : list (String.string * Q * Q) :=
  [ ("delta"%string, 0.5, 4);
    ("theta"%string, 4, 8);
    ("alpha"%string, 8, 13);
    ("beta"%string, 13, 30);
    ("gamma"%string, 30, 45) ].

(** The trapezoidal rule written over the selected bins [(frequency, power)],
    one trapezoid per pair of neighbours: what the band power is compared
    with. *)
Fixpoint trapezoid (bins : list (Q * Q)) : Q :=
  match bins with
  | [] => 0
  | (x0, y0) :: rest =>
      match rest with
      | [] => 0
      | (x1, y1) :: _ => (x1 - x0) * (y1 + y0) / 2 + trapezoid rest
      end
  end.

(** The bins of a PSD that lie in a band, in order. *)
Definition bins_in_band (freqs psd : list Q) (fmin fmax : Q) : list (Q * Q) :=
  filter (fun b => in_band fmin fmax (fst b)) (combine freqs psd).

(** ** The acquisition loop *)

(** The command line: [--duration], [--target-hz], [--window], [--csv]. *)
Record args : Type := {
  duration : Q;
  target_hz : Q;
  window : Q;
  csv : String.string
}.

(** What one iteration gets from outside: the sensor's [ain.read()], the
    clock at line 68 (read only when a value came) and the clock at line 75. *)
Record tick : Type := {
  reading : option Q;
  clock_sample : Q;
  clock_now : Q
}.

(** What the loop hands to the outside: the pacing sleep (line 72) and the
    redraw (lines 82-107) with the series, the rate label and the bars. *)
Inductive event : Type :=
| EvSleep (seconds : Q)
| EvPublish (now : Q) (series_t series_y : list Q) (fs : fval) (heights : list Q).

(** The locals of [main] that the loop changes; [log] is newest first. *)
Record state : Type := {
  ts : list Q;
  ys : list Q;
  last_redraw : Q;
  bars : list Q;
  log : list event
}.

Inductive outcome : Type :=
| Continue
| Break
| Interrupted
| Raised (e : exn).

(** Lines 50, 58 and 63. *)
Definition init : state :=
  {| ts := []; ys := []; last_redraw := 0;
     bars := repeat 0 (length BANDS); log := [] |}.

(** Lines 66-69: [v = ain.read(); if v is not None: ts.append(time.time()
    - t_start); ys.append(v * 1023.0)]. *)
Definition acquire (t_start : Q) (tk : tick) (s : state) : state :=
  match reading tk with
  | Some v =>
      {| ts := ts s ++ [clock_sample tk - t_start];
         ys := ys s ++ [v * 1023];
         last_redraw := last_redraw s; bars := bars s; log := log s |}
  | None => s
  end.

(** Lines 71-72: [if args.target_hz > 0:
    time.sleep(max(0.0, 1.0 / args.target_hz - 0.0005))]. *)
Definition pace (a : args) (s : state) : result state :=
  if Qltb 0 (target_hz a)
  then
    period <- py_div 1 (target_hz a) ;;
    _ <- py_sleep (py_max 0 (period - 0.0005)) ;;
    Ok {| ts := ts s; ys := ys s; last_redraw := last_redraw s;
          bars := bars s;
          log := EvSleep (py_max 0 (period - 0.0005)) :: log s |}
  else Ok s.

(** [bars[j].set_height(h)]. *)
Fixpoint set_height (bars : list Q) (j : nat) (h : Q) : result (list Q) :=
  match bars, j with
  | [], _ => Raise IndexError
  | _ :: rest, O => Ok (h :: rest)
  | b :: rest, S j' => r <- set_height rest j' h ;; Ok (b :: r)
  end.

(** Lines 101-102: [for j, (_, f1, f2) in enumerate(BANDS):
    bars[j].set_height(bandpower(f, Pxx, f1, f2))], from index [j] on. *)
Fixpoint set_heights (bands : list (String.string * Q * Q)) (j : nat)
    (f Pxx : list Q) (bars : list Q) : result (list Q) :=
  match bands with
  | [] => Ok bars
  | (_, f1, f2) :: rest =>
      h <- bandpower f Pxx f1 f2 ;;
      bars' <- set_height bars j h ;;
      set_heights rest (S j) f Pxx bars'
  end.

(** The gate of line 76: [now - last_redraw > 0.1 and len(ts) > 2]. *)
Definition gate (now : Q) (s : state) : bool :=
  Qltb 0.1 (now - last_redraw s) && (2 <? length (ts s))%nat.

(** The exit test of line 110:
    [args.duration and ts and ts[-1] >= args.duration]. *)
Definition finished (a : args) (s : state) : result bool :=
  if truthy (duration a)
  then
    if nonempty (ts s)
    then t_last <- getitem_last (ts s) ;; Ok (Qleb (duration a) t_last)
    else Ok false
  else Ok false.

Section Loop.

(** [signal.welch(yw, fs=fsw, nperseg=nperseg)] of SciPy, returning
    [(f, Pxx)]. *)
Variable welch : list Q -> Q -> nat -> list Q * list Q.

(** Lines 97-104: the spectral step on the window [(yw, tw)]. *)
Definition analyse (yw tw : list Q) (bars : list Q) : result (list Q) :=
  if (16 <? length yw)%nat
  then
    t_last <- getitem_last tw ;;
    t_first <- getitem_first tw ;;
    if Qltb 0 (t_last - t_first)
    then
      let fsw := (len_q yw - 1) / (t_last - t_first) in
      let nperseg := py_min 256 (length yw) in
      let '(f, Pxx) := welch yw fsw nperseg in
      set_heights BANDS 0 f Pxx bars
    else Ok bars
  else Ok bars.

(** Lines 77-108, the body under the gate. *)
Definition redraw (a : args) (now : Q) (s : state) : result state :=
  tmax <- getitem_last (ts s) ;;
  fs <- loop_fs (ts s) ;;
  let '(yw, tw) := window_slice (ts s) (ys s) tmax (window a) in
  bars' <- analyse yw tw (bars s) ;;
  Ok {| ts := ts s; ys := ys s; last_redraw := now; bars := bars';
        log := EvPublish now (ts s) (ys s) fs bars' :: log s |}.

(** Lines 66-111, one pass of [while True].  An exception leaves the loop
    with the samples acquired so far; bars that a redraw had already set
    before it raised are not tracked. *)
Definition iteration (a : args) (t_start : Q) (tk : tick) (s : state)
  : state * outcome :=
  let s1 := acquire t_start tk s in
  match pace a s1 with
  | Raise e => (s1, Raised e)
  | Ok s2 =>
      let drawn :=
        if gate (clock_now tk) s2 then redraw a (clock_now tk) s2
        else Ok s2 in
      match drawn with
      | Raise e => (s2, Raised e)
      | Ok s3 =>
          match finished a s3 with
          | Raise e => (s3, Raised e)
          | Ok true => (s3, Break)
          | Ok false => (s3, Continue)
          end
      end
  end.

(** The loop over the iterations that happen before Ctrl-C: the list of
    ticks ends where [KeyboardInterrupt] arrives. *)
Fixpoint run (a : args) (t_start : Q) (ticks : list tick) (s : state)
  : state * outcome :=
  match ticks with
  | [] => (s, Interrupted)
  | tk :: rest =>
      match iteration a t_start tk s with
      | (s', Continue) => run a t_start rest s'
      | stop => stop
      end
  end.

End Loop.

(** ** After the loop *)

(** What the [finally] block leaves behind: the files written, the summary
    line (or the exception its computation raised) and whether
    [board.exit()] was reached. *)
Record final : Type := {
  written : list (String.string * (list String.string * list (Q * Q)));
  report : result (option (nat * Q));
  board_released : bool
}.

(** [if args.csv]: a non-empty string. *)
Definition configured (path : String.string) : bool :=
  negb (String.eqb path String.EmptyString).

(** Lines 115-125.  The export sink is taken to accept the rows: what is
    recorded is the content handed to [csv.writer], not whether the file
    could be opened. *)
Definition finalize (a : args) (s : state) : final :=
  let files :=
    if configured (csv a)
    then [(csv a, (["t_sec"%string; "adc_0_1023"%string],
                   combine (ts s) (ys s)))]
    else [] in
  let rep := summary (ts s) in
  {| written := files;
     report := rep;
     board_released := match rep with Ok _ => true | Raise _ => false end |}.

(** The samples that a list of ticks delivers, in order. *)
Fixpoint acquired (t_start : Q) (ticks : list tick) : list (Q * Q) :=
  match ticks with
  | [] => []
  | tk :: rest =>
      match reading tk with
      | Some v => (clock_sample tk - t_start, v * 1023) :: acquired t_start rest
      | None => acquired t_start rest
      end
  end.

(** The times of the redraws in a log, newest first. *)
Fixpoint publish_times (l : list event) : list Q :=
  match l with
  | [] => []
  | EvPublish now _ _ _ _ :: rest => now :: publish_times rest
  | EvSleep _ :: rest => publish_times rest
  end.

(** The sample counts that the redraws in a log saw. *)
Fixpoint publish_sizes (l : list event) : list nat :=
  match l with
  | [] => []
  | EvPublish _ st _ _ _ :: rest => length st :: publish_sizes rest
  | EvSleep _ :: rest => publish_sizes rest
  end.

(** A PSD estimator for concrete runs: the bins [k * fs / nperseg] up to
    Nyquist with a flat density, 1 in every bin. *)
Definition welch_flat (yw : list Q) (fs : Q) (nperseg : nat) : list Q * list Q :=
  let ks := seq 0 (S (nperseg / 2)) in
  (map (fun k => inject_Z (Z.of_nat k) * fs / inject_Z (Z.of_nat nperseg)) ks,
   map (fun _ => 1) ks).

(** The redraw record of a state is in order: each redraw is more than
    0.1 s after every earlier one, none is later than [last_redraw], and
    each saw at least 3 samples. *)
Definition throttled (s : state) : Prop :=
  StronglySorted (fun later earlier => 0.1 < later - earlier)
    (publish_times (log s)) /\
  Forall (fun p => p <= last_redraw s) (publish_times (log s)) /\
  Forall (fun n => (3 <= n)%nat) (publish_sizes (log s)).

(** A PSD estimator that returns as many powers as frequencies. *)
Definition psd_shaped (welch : list Q -> Q -> nat -> list Q * list Q) : Prop :=
  forall yw fs nperseg,
    length (fst (welch yw fs nperseg)) = length (snd (welch yw fs nperseg)).

(** The shape of the locals that the loop keeps: as many values as
    timestamps, and one bar for each band. *)
Definition well_shaped (s : state) : Prop :=
  length (ts s) = length (ys s) /\ length (bars s) = length BANDS.

(** ** Warm-up *)

(** What one pass of the warm-up loop gets from outside: the sensor's
    [ain.read()] and, when that is [None], the clock. *)
Record poll : Type := {
  w_reading : option Q;
  w_clock : Q
}.

(** Lines 46-48: [t0 = time.time();
    while ain.read() is None and time.time() - t0 < 3.0: time.sleep(0.01)].
    The result is the number of sleeps before the loop ended, or [None] when
    the polls run out while it still waits. *)
Fixpoint warmup (t0 : Q) (polls : list poll) : option nat :=
  match polls with
  | [] => None
  | p :: rest =>
      match w_reading p with
      | Some _ => Some 0%nat
      | None =>
          if Qltb (w_clock p - t0) 3
          then option_map S (warmup t0 rest)
          else Some 0%nat
      end
  end.

(** Each sleep of the warm-up lasts at least its 10 ms: the clock of the
    first poll is at least [lo], and each later one at least 0.01 more. *)
Fixpoint paced (lo : Q) (polls : list poll) : Prop :=
  match polls with
  | [] => True
  | p :: rest => lo <= w_clock p /\ paced (lo + 0.01) rest
  end.

(** ** Clocks *)

(** The clock read at line 68 never runs backwards: the first tick's is at
    least [lo] and each later one at least the one before. *)
Fixpoint clock_ascending (lo : Q) (ticks : list tick) : Prop :=
  match ticks with
  | [] => True
  | tk :: rest => lo <= clock_sample tk /\ clock_ascending (clock_sample tk) rest
  end.


(** The pacing sleep of the run is one that [time.sleep] accepts: there is
    none, or it is at most [SLEEP_MAX]. *)
Definition sleep_accepted (a : args) : Prop :=
  target_hz a <= 0 \/ 1 / target_hz a - 0.0005 <= SLEEP_MAX.

(** ** Concrete inputs *)


(** A run asked to last one second, writing [out.csv]. *)
Definition args_1s : args :=
  {| duration := 1; target_hz := 100; window := 2; csv := "out.csv"%string |}.

(** An iteration at clock [now] in which the sensor has no value. *)
Definition silent (now : Q) : tick :=
  {| reading := None; clock_sample := now; clock_now := now |}.

(** An iteration in which the sensor gives [v] at clock [t]; the pacing
    sleep puts the second clock read 10 ms later. *)
Definition sample (v t : Q) : tick :=
  {| reading := Some v; clock_sample := t; clock_now := t + 0.01 |}.

(** The locals after 17 samples taken 10 ms apart, with bars still at the
    heights of an earlier redraw. *)
Definition burst_state : state :=
  {| ts := map (fun k => inject_Z (Z.of_nat k) / 100) (seq 0 17);
     ys := repeat 1023 17;
     last_redraw := 0;
     bars := [1; 2; 3; 4; 5];
     log := [] |}.

(** Fifty timestamps [0, 1/49, ..., 1]: one second from first to last. *)
Definition fifty_in_one_second : list Q :=
  map (fun k => inject_Z (Z.of_nat k) / 49) (seq 0 50).

(** ** Helper lemmas on comparisons and indexing *)

Lemma Qltb_true (a b : Q) : Qltb a b = true <-> a < b.
Proof.
  unfold Qltb. rewrite negb_true_iff.
  split; intro H.
  - apply Qnot_le_lt. intro Hle. apply Qle_bool_iff in Hle. congruence.
  - destruct (Qle_bool b a) eqn:E; [|reflexivity].
    apply Qle_bool_iff in E. exfalso. apply (Qlt_not_le _ _ H E).
Qed.

Lemma Qltb_false (a b : Q) : Qltb a b = false <-> b <= a.
Proof.
  unfold Qltb. rewrite negb_false_iff. apply Qle_bool_iff.
Qed.

Lemma Qleb_true (a b : Q) : Qleb a b = true <-> a <= b.
Proof. apply Qle_bool_iff. Qed.

Lemma getitem_last_cons {A : Type} (x y : A) (l : list A) :
  getitem_last (x :: y :: l) = getitem_last (y :: l).
Proof. reflexivity. Qed.

Lemma getitem_last_default {A : Type} (l : list A) (d : A) :
  l <> [] -> getitem_last l = Ok (last l d).
Proof.
  induction l as [|a l IH]; [congruence|].
  intros _. destruct l as [|b l]; [reflexivity|].
  rewrite getitem_last_cons. rewrite IH by congruence. reflexivity.
Qed.

Lemma strictly_increasing_last (x : Q) (l : list Q) :
  strictly_increasing (x :: l) -> l <> [] -> x < last l 0.
Proof.
  revert x. induction l as [|y l IH]; intros x Hs Hne; [congruence|].
  destruct Hs as [Hxy Hs].
  destruct l as [|z l]; [exact Hxy|].
  change (last (y :: z :: l) 0) with (last (z :: l) 0).
  apply Qlt_trans with y; [exact Hxy|].
  apply IH; [exact Hs | congruence].
Qed.

Lemma Qeq_bool_sub_diag (t : Q) : Qeq_bool (t - t) 0 = true.
Proof. apply Qeq_bool_iff. ring. Qed.

Lemma py_div_pos (a b : Q) : 0 < b -> py_div a b = Ok (a / b).
Proof.
  intro Hb. unfold py_div.
  destruct (Qeq_bool b 0) eqn:E; [|reflexivity].
  apply Qeq_bool_iff in E. rewrite E in Hb. exfalso. apply (Qlt_irrefl 0 Hb).
Qed.

(** ** The rate estimate *)

(** The estimate in the loop is defined on every non-empty buffer. *)
Lemma loop_fs_total (ts : list Q) :
  ts <> [] -> exists f, loop_fs ts = Ok f.
Proof.
  intro Hne. unfold loop_fs.
  rewrite (getitem_last_default ts 0 Hne).
  destruct ts as [|t0 rest]; [congruence|].
  cbn [bind getitem_first].
  destruct (Qltb 0 (last (t0 :: rest) 0 - t0)) eqn:E.
  - apply Qltb_true in E. rewrite (py_div_pos _ _ E). cbn [bind]. eauto.
  - eauto.
Qed.

(** C1 (code defect).  On a buffer of one sample, or of two samples with
    the same timestamp, the summary after the loop (lines 122-124) divides
    by the zero span and raises [ZeroDivisionError], while the estimate
    inside the loop (lines 85-88) answers [nan] on the same buffers.  A run
    stopped by Ctrl-C after its first sample ends this way, before
    [board.exit()]. *)
Theorem summary_single_sample_raises (t : Q) :
  summary [t] = Raise ZeroDivisionError /\
  summary [t; t] = Raise ZeroDivisionError /\
  loop_fs [t] = Ok NaN /\
  loop_fs [t; t] = Ok NaN /\
  finalize args_1s
    (fst (run welch_flat args_1s 1000 [sample (1 # 2) 1000.2] init))
  = {| written := [("out.csv"%string,
                    (["t_sec"%string; "adc_0_1023"%string],
                     [(1000.2 - 1000, (1 # 2) * 1023)]))];
       report := Raise ZeroDivisionError;
       board_released := false |}.
Proof.
  assert (E : Qltb 0 (t - t) = false).
  { apply Qltb_false. setoid_replace (t - t) with 0 by ring. apply Qle_refl. }
  split; [|split; [|split; [|split]]].
  - unfold summary. cbn [nonempty getitem_last getitem_first bind].
    unfold py_div. rewrite Qeq_bool_sub_diag. reflexivity.
  - unfold summary. cbn [nonempty getitem_last getitem_first bind].
    unfold py_div. rewrite Qeq_bool_sub_diag. reflexivity.
  - unfold loop_fs. cbn [getitem_last getitem_first bind].
    rewrite E. reflexivity.
  - unfold loop_fs. cbn [getitem_last getitem_first bind].
    rewrite E. reflexivity.
  - reflexivity.
Qed.

(** C4.  On a buffer of [n >= 2] strictly increasing timestamps both rate
    computations return [(n - 1) / (t_last - t_first)]; when the buffer has
    50 samples and spans one second that value is 49. *)
Theorem rate_estimate_exact (ts : list Q) :
  (2 <= length ts)%nat ->
  strictly_increasing ts ->
  exists t_first t_last,
    getitem_first ts = Ok t_first /\
    getitem_last ts = Ok t_last /\
    t_first < t_last /\
    loop_fs ts = Ok (Num ((len_q ts - 1) / (t_last - t_first))) /\
    summary ts = Ok (Some (length ts, (len_q ts - 1) / (t_last - t_first))) /\
    (length ts = 50%nat -> t_last - t_first == 1 ->
     (len_q ts - 1) / (t_last - t_first) == 49).
Proof.
  intros Hlen Hinc.
  destruct ts as [|t0 rest]; [simpl in Hlen; lia|].
  assert (Hrest : rest <> []) by (destruct rest; [simpl in Hlen; lia | congruence]).
  pose proof (strictly_increasing_last t0 rest Hinc Hrest) as Hlt.
  assert (Hlast : getitem_last (t0 :: rest) = Ok (last rest 0)).
  { destruct rest as [|t1 rest']; [congruence|].
    rewrite getitem_last_cons. apply getitem_last_default. congruence. }
  assert (Hspan : 0 < last rest 0 - t0) by lra.
  exists t0, (last rest 0).
  split; [reflexivity|]. split; [exact Hlast|]. split; [exact Hlt|].
  split; [|split].
  - unfold loop_fs. rewrite Hlast. cbn [bind getitem_first].
    apply Qltb_true in Hspan. rewrite Hspan.
    apply Qltb_true in Hspan. rewrite (py_div_pos _ _ Hspan). reflexivity.
  - unfold summary. cbn [nonempty]. rewrite Hlast. cbn [bind getitem_first].
    rewrite (py_div_pos _ _ Hspan). reflexivity.
  - intros H50 H1. unfold len_q. rewrite H50, H1. reflexivity.
Qed.

Lemma rate_estimate_exact_witness :
  exists t_first t_last,
    getitem_first fifty_in_one_second = Ok t_first /\
    getitem_last fifty_in_one_second = Ok t_last /\
    t_first < t_last /\
    loop_fs fifty_in_one_second
      = Ok (Num ((len_q fifty_in_one_second - 1) / (t_last - t_first))) /\
    summary fifty_in_one_second
      = Ok (Some (length fifty_in_one_second,
                  (len_q fifty_in_one_second - 1) / (t_last - t_first))) /\
    (length fifty_in_one_second = 50%nat -> t_last - t_first == 1 ->
     (len_q fifty_in_one_second - 1) / (t_last - t_first) == 49).
Proof.
  apply (rate_estimate_exact fifty_in_one_second).
  - vm_compute. lia.
  - vm_compute. repeat split.
Defined.

(** ** Window selection *)

Lemma ascending_tail (x : Q) (l : list Q) : ascending (x :: l) -> ascending l.
Proof. destruct l as [|y l]; [intros _; exact I | intros [_ H]; exact H]. Qed.

Lemma ascending_head_le (x : Q) (l : list Q) (j : nat) :
  ascending (x :: l) -> (j < length l)%nat -> x <= nth j l 0.
Proof.
  revert x j. induction l as [|y l IH]; intros x j Ha Hj; [simpl in Hj; lia|].
  destruct Ha as [Hxy Ha].
  destruct j as [|j]; [exact Hxy|].
  simpl in Hj. cbn [nth].
  apply Qle_trans with y; [exact Hxy|].
  apply IH; [exact Ha | lia].
Qed.

Lemma ascending_nth (l : list Q) (i j : nat) :
  ascending l -> (i <= j)%nat -> (j < length l)%nat ->
  nth i l 0 <= nth j l 0.
Proof.
  revert i j. induction l as [|x l IH]; intros i j Ha Hij Hj; [simpl in Hj; lia|].
  destruct i as [|i].
  - destruct j as [|j]; [apply Qle_refl|].
    simpl in Hj. cbn [nth]. apply ascending_head_le; [exact Ha | lia].
  - destruct j as [|j]; [lia|].
    simpl in Hj. cbn [nth].
    apply IH; [exact (ascending_tail _ _ Ha) | lia | lia].
Qed.

(** The binary search keeps every index below [lo] under the key and every
    index from [hi] on at or above it, so on an ascending array it ends on
    the boundary between the two. *)
Lemma binsearch_left_boundary (a : list Q) (key : Q) (lo hi : nat) :
  ascending a ->
  (lo <= hi)%nat -> (hi <= length a)%nat ->
  (forall i, (i < lo)%nat -> nth i a 0 < key) ->
  (forall i, (hi <= i)%nat -> (i < length a)%nat -> key <= nth i a 0) ->
  (lo <= binsearch_left a key lo hi)%nat /\
  (binsearch_left a key lo hi <= hi)%nat /\
  (forall i, (i < binsearch_left a key lo hi)%nat -> nth i a 0 < key) /\
  (forall i, (binsearch_left a key lo hi <= i)%nat -> (i < length a)%nat ->
             key <= nth i a 0).
Proof.
  intro Ha.
  funelim (binsearch_left a key lo hi); intros Hlh Hhi Hlow Hhigh.
  - (* lo >= hi *)
    repeat split; [lia | lia | exact Hlow |].
    intros i Hi Hil. apply Hhigh; [lia | exact Hil].
  - (* a[mid] < key *)
    assert (Hm : ((hi - lo) / 2 < hi - lo)%nat) by (apply Nat.div_lt; lia).
    apply Qltb_true in Heq.
    assert (Hlow' : forall i, (i < S (lo + (hi - lo) / 2))%nat ->
                              nth i a 0 < key).
    { intros i Hi.
      apply Qle_lt_trans with (nth (lo + (hi - lo) / 2) a 0); [|exact Heq].
      apply ascending_nth; [exact Ha | lia | lia]. }
    assert (Hle : (S (lo + (hi - lo) / 2) <= hi)%nat) by lia.
    destruct (H Ha Hle Hhi Hlow' Hhigh) as (H1 & H2 & H3 & H4).
    repeat split; [lia | exact H2 | exact H3 | exact H4].
  - (* key <= a[mid] *)
    assert (Hm : ((hi - lo) / 2 < hi - lo)%nat) by (apply Nat.div_lt; lia).
    apply Qltb_false in Heq.
    assert (Hhigh' : forall i, (lo + (hi - lo) / 2 <= i)%nat ->
                               (i < length a)%nat -> key <= nth i a 0).
    { intros i Hi Hil.
      apply Qle_trans with (nth (lo + (hi - lo) / 2) a 0); [exact Heq|].
      apply ascending_nth; [exact Ha | lia | lia]. }
    assert (Hle : (lo <= lo + (hi - lo) / 2)%nat) by lia.
    assert (Hle' : (lo + (hi - lo) / 2 <= length a)%nat) by lia.
    destruct (H Ha Hle Hle' Hlow Hhigh') as (H1 & H2 & H3 & H4).
    repeat split; [exact H1 | lia | exact H3 | exact H4].
Qed.

Lemma Forall_firstn_nth (P : Q -> Prop) (l : list Q) (n : nat) :
  (n <= length l)%nat ->
  (forall i, (i < n)%nat -> P (nth i l 0)) -> Forall P (firstn n l).
Proof.
  revert n. induction l as [|x l IH]; intros n Hn H.
  - rewrite firstn_nil. constructor.
  - destruct n as [|n]; [constructor|].
    cbn [firstn]. constructor.
    + apply (H 0%nat). lia.
    + apply IH; [simpl in Hn; lia|].
      intros i Hi. apply (H (S i)). lia.
Qed.

Lemma Forall_skipn_nth (P : Q -> Prop) (l : list Q) (n : nat) :
  (forall i, (n <= i)%nat -> (i < length l)%nat -> P (nth i l 0)) ->
  Forall P (skipn n l).
Proof.
  revert n. induction l as [|x l IH]; intros n H.
  - rewrite skipn_nil. constructor.
  - destruct n as [|n].
    + cbn [skipn]. constructor.
      * apply (H 0%nat); simpl; lia.
      * apply (IH 0%nat). intros i _ Hi. apply (H (S i)); simpl; lia.
    + cbn [skipn]. apply IH.
      intros i Hni Hi. apply (H (S i)); simpl; lia.
Qed.

(** [searchsorted] on an ascending array: everything before the index is
    under the key, everything from it on is at or above the key. *)
Lemma searchsorted_split (a : list Q) (key : Q) :
  ascending a ->
  (searchsorted a key <= length a)%nat /\
  Forall (fun t => t < key) (firstn (searchsorted a key) a) /\
  Forall (fun t => key <= t) (skipn (searchsorted a key) a).
Proof.
  intro Ha. unfold searchsorted.
  destruct (binsearch_left_boundary a key 0 (length a) Ha) as (_ & H2 & H3 & H4).
  - lia.
  - lia.
  - intros i Hi. lia.
  - intros i Hi Hil. lia.
  - split; [exact H2|]. split.
    + apply Forall_firstn_nth; [exact H2 | exact H3].
    + apply Forall_skipn_nth. exact H4.
Qed.

Lemma py_max_ge_r (a b : Q) : b <= py_max a b.
Proof.
  unfold py_max. destruct (Qltb a b) eqn:E.
  - apply Qle_refl.
  - apply Qltb_false in E. exact E.
Qed.

Lemma py_max_lt_nonneg (w t : Q) : 0 <= t -> t < py_max 0 w -> t < w.
Proof.
  intros Ht. unfold py_max. destruct (Qltb 0 w) eqn:E.
  - intro H. exact H.
  - intro H. exfalso. apply (Qlt_not_le _ _ H Ht).
Qed.

Lemma Forall_firstn {A : Type} (P : A -> Prop) (l : list A) (n : nat) :
  Forall P l -> Forall P (firstn n l).
Proof.
  intro H. revert n. induction H as [|x l Hx Hl IH]; intro n.
  - rewrite firstn_nil. constructor.
  - destruct n; cbn [firstn]; constructor; [exact Hx | apply IH].
Qed.

(** C3, a counterexample to the claim as stated: with timestamps below zero
    the search key is clamped to 0 by [max(0.0, w_start)], and the slice
    leaves out samples that are inside the window. *)
Lemma window_slice_negative_timestamps :
  ascending [-2; -1] /\
  getitem_last [-2; -1] = Ok (-1) /\
  -1 - 5 <= -1 /\
  window_slice [-2; -1] [10; 20] (-1) 5 = ([], []).
Proof.
  split; [|split; [|split]].
  - simpl. split; [|exact I]. vm_compute. discriminate.
  - reflexivity.
  - vm_compute. discriminate.
  - reflexivity.
Qed.

(** C3, amended.  For a buffer of ascending timestamps that are not below
    zero (with as many values as timestamps) and any window [W], the slice of
    lines 92-95 is a suffix of the buffer: every timestamp in it is
    [>= tmax - W], every timestamp before it is [< tmax - W], and an empty
    buffer gives an empty slice.  Line 78 sets [tmax] to [ts[-1]]. *)
Theorem window_slice_maximal_suffix (ts ys : list Q) (tmax W : Q) :
  length ts = length ys ->
  ascending ts ->
  Forall (fun t => 0 <= t) ts ->
  exists pre_t pre_y tw yw,
    window_slice ts ys tmax W = (yw, tw) /\
    ts = pre_t ++ tw /\
    ys = pre_y ++ yw /\
    length pre_t = length pre_y /\
    length tw = length yw /\
    Forall (fun t => tmax - W <= t) tw /\
    Forall (fun t => t < tmax - W) pre_t /\
    (ts = [] -> tw = [] /\ yw = []).
Proof.
  intros Hlen Hasc Hpos.
  set (key := py_max 0 (tmax - W)).
  destruct (searchsorted_split ts key Hasc) as (Hn & Hpre & Hsuf).
  exists (firstn (searchsorted ts key) ts), (firstn (searchsorted ts key) ys),
         (skipn (searchsorted ts key) ts), (skipn (searchsorted ts key) ys).
  split; [reflexivity|].
  split; [symmetry; apply firstn_skipn|].
  split; [symmetry; apply firstn_skipn|].
  split; [rewrite !length_firstn, Hlen; reflexivity|].
  split; [rewrite !length_skipn, Hlen; reflexivity|].
  split; [|split].
  - eapply Forall_impl; [|exact Hsuf].
    intros t Ht. cbv beta in Ht.
    apply Qle_trans with key; [apply py_max_ge_r | exact Ht].
  - pose proof (Forall_firstn _ _ (searchsorted ts key) Hpos) as Hpos'.
    rewrite Forall_forall in *.
    intros t Hin. apply py_max_lt_nonneg; [apply Hpos'; exact Hin|].
    apply Hpre. exact Hin.
  - intro Hnil. subst ts. destruct ys; [|discriminate Hlen].
    rewrite !skipn_nil. split; reflexivity.
Qed.

Lemma window_slice_maximal_suffix_witness :
  exists pre_t pre_y tw yw,
    window_slice [0; 1; 2; 3] [10; 20; 30; 40] 3 (3 # 2) = (yw, tw) /\
    [0; 1; 2; 3] = pre_t ++ tw /\
    [10; 20; 30; 40] = pre_y ++ yw /\
    length pre_t = length pre_y /\
    length tw = length yw /\
    Forall (fun t => 3 - (3 # 2) <= t) tw /\
    Forall (fun t => t < 3 - (3 # 2)) pre_t /\
    ([0; 1; 2; 3] = [] -> tw = [] /\ yw = []).
Proof.
  apply (window_slice_maximal_suffix [0; 1; 2; 3] [10; 20; 30; 40] 3 (3 # 2)).
  - reflexivity.
  - simpl. repeat split; vm_compute; discriminate.
  - repeat constructor; vm_compute; discriminate.
Defined.

(** ** Band power *)

Lemma mask_select_freqs (freqs psd : list Q) (fmin fmax : Q) :
  length freqs = length psd ->
  mask_select (band_mask freqs fmin fmax) freqs
  = Ok (map fst (bins_in_band freqs psd fmin fmax)).
Proof.
  revert psd. induction freqs as [|f freqs IH]; intros psd Hlen.
  - reflexivity.
  - destruct psd as [|p psd]; [discriminate Hlen|].
    injection Hlen as Hlen.
    unfold band_mask, bins_in_band in *. cbn [map combine filter mask_select fst].
    rewrite (IH psd Hlen). cbn [bind].
    destruct (in_band fmin fmax f); reflexivity.
Qed.

Lemma mask_select_psd (freqs psd : list Q) (fmin fmax : Q) :
  length freqs = length psd ->
  mask_select (band_mask freqs fmin fmax) psd
  = Ok (map snd (bins_in_band freqs psd fmin fmax)).
Proof.
  revert psd. induction freqs as [|f freqs IH]; intros psd Hlen.
  - destruct psd; [reflexivity | discriminate Hlen].
  - destruct psd as [|p psd]; [discriminate Hlen|].
    injection Hlen as Hlen.
    unfold band_mask, bins_in_band in *. cbn [map combine filter mask_select fst].
    rewrite (IH psd Hlen). cbn [bind].
    destruct (in_band fmin fmax f); reflexivity.
Qed.

Lemma np_any_band_mask (freqs psd : list Q) (fmin fmax : Q) :
  length freqs = length psd ->
  np_any (band_mask freqs fmin fmax)
  = nonempty (bins_in_band freqs psd fmin fmax).
Proof.
  revert psd. induction freqs as [|f freqs IH]; intros psd Hlen.
  - reflexivity.
  - destruct psd as [|p psd]; [discriminate Hlen|].
    injection Hlen as Hlen.
    unfold np_any, band_mask, bins_in_band in *.
    cbn [map combine filter existsb fst].
    destruct (in_band fmin fmax f); [reflexivity|].
    cbn [orb]. apply IH. exact Hlen.
Qed.

Lemma fold_left_Qplus_acc (l : list Q) (acc : Q) :
  fold_left Qplus l acc == acc + fold_left Qplus l 0.
Proof.
  revert acc. induction l as [|x l IH]; intro acc.
  - simpl. ring.
  - cbn [fold_left]. rewrite (IH (acc + x)), (IH (0 + x)). ring.
Qed.

Lemma np_sum_cons (x : Q) (l : list Q) : np_sum (x :: l) == x + np_sum l.
Proof.
  unfold np_sum. cbn [fold_left]. rewrite fold_left_Qplus_acc. ring.
Qed.

(** The vectorised [np.trapz] on the two columns of a bin list is the sum of
    the trapezoids between neighbouring bins. *)
Lemma np_trapz_trapezoid (bins : list (Q * Q)) :
  np_trapz (map snd bins) (map fst bins) == trapezoid bins.
Proof.
  induction bins as [|[x0 y0] rest IH]; [reflexivity|].
  destruct rest as [|[x1 y1] rest']; [reflexivity|].
  unfold np_trapz, np_diff, ew in *.
  cbn [map fst snd tl removelast combine] in *.
  change (trapezoid ((x0, y0) :: (x1, y1) :: rest'))
    with ((x1 - x0) * (y1 + y0) / 2 + trapezoid ((x1, y1) :: rest')).
  destruct rest' as [|[x2 y2] rest''].
  - cbn [map fst snd tl removelast combine trapezoid].
    rewrite np_sum_cons. unfold np_sum. simpl fold_left. reflexivity.
  - cbn [map fst snd tl removelast combine] in *.
    rewrite np_sum_cons. rewrite IH. reflexivity.
Qed.

Lemma bandpower_bins (freqs psd : list Q) (fmin fmax : Q) :
  length freqs = length psd ->
  bandpower freqs psd fmin fmax
  = match bins_in_band freqs psd fmin fmax with
    | [] => Ok 0
    | bins => Ok (np_trapz (map snd bins) (map fst bins))
    end.
Proof.
  intro Hlen. unfold bandpower.
  rewrite (np_any_band_mask freqs psd fmin fmax Hlen).
  rewrite (mask_select_psd freqs psd fmin fmax Hlen).
  rewrite (mask_select_freqs freqs psd fmin fmax Hlen).
  destruct (bins_in_band freqs psd fmin fmax); reflexivity.
Qed.

Lemma in_band_iff (fmin fmax f : Q) :
  in_band fmin fmax f = true <-> fmin <= f /\ f <= fmax.
Proof.
  unfold in_band. rewrite andb_true_iff, !Qleb_true. reflexivity.
Qed.

(** C6.  On a PSD with as many powers as frequencies, [bandpower] works on
    exactly the bins whose frequency lies in [[fmin, fmax]], both ends
    included, in their order; with no such bin it returns [0], otherwise
    the trapezoidal integral of the power over the frequency on those bins;
    its result is a function of its four arguments alone. *)
Theorem bandpower_selects_and_integrates (freqs psd : list Q) (fmin fmax : Q) :
  length freqs = length psd ->
  (forall f p,
     In (f, p) (bins_in_band freqs psd fmin fmax) <->
     In (f, p) (combine freqs psd) /\ fmin <= f /\ f <= fmax) /\
  (bins_in_band freqs psd fmin fmax = [] ->
   bandpower freqs psd fmin fmax = Ok 0) /\
  (bins_in_band freqs psd fmin fmax <> [] ->
   exists r, bandpower freqs psd fmin fmax = Ok r /\
             r == trapezoid (bins_in_band freqs psd fmin fmax)) /\
  (forall r1 r2,
     bandpower freqs psd fmin fmax = r1 ->
     bandpower freqs psd fmin fmax = r2 -> r1 = r2).
Proof.
  intro Hlen. split; [|split; [|split]].
  - intros f p. unfold bins_in_band. rewrite filter_In. cbn [fst].
    rewrite in_band_iff. reflexivity.
  - intro Hnil. rewrite (bandpower_bins _ _ _ _ Hlen), Hnil. reflexivity.
  - intro Hne. rewrite (bandpower_bins _ _ _ _ Hlen).
    destruct (bins_in_band freqs psd fmin fmax) as [|b bins] eqn:E;
      [congruence|].
    eexists. split; [reflexivity|]. apply np_trapz_trapezoid.
  - intros r1 r2 H1 H2. congruence.
Qed.

Lemma bandpower_selects_and_integrates_witness :
  (forall f p,
     In (f, p) (bins_in_band [0; 1; 2; 3; 4] [1; 2; 3; 4; 5] 1 3) <->
     In (f, p) (combine [0; 1; 2; 3; 4] [1; 2; 3; 4; 5]) /\ 1 <= f /\ f <= 3) /\
  (bins_in_band [0; 1; 2; 3; 4] [1; 2; 3; 4; 5] 1 3 = [] ->
   bandpower [0; 1; 2; 3; 4] [1; 2; 3; 4; 5] 1 3 = Ok 0) /\
  (bins_in_band [0; 1; 2; 3; 4] [1; 2; 3; 4; 5] 1 3 <> [] ->
   exists r, bandpower [0; 1; 2; 3; 4] [1; 2; 3; 4; 5] 1 3 = Ok r /\
             r == trapezoid (bins_in_band [0; 1; 2; 3; 4] [1; 2; 3; 4; 5] 1 3)) /\
  (forall r1 r2,
     bandpower [0; 1; 2; 3; 4] [1; 2; 3; 4; 5] 1 3 = r1 ->
     bandpower [0; 1; 2; 3; 4] [1; 2; 3; 4; 5] 1 3 = r2 -> r1 = r2).
Proof.
  apply (bandpower_selects_and_integrates [0; 1; 2; 3; 4] [1; 2; 3; 4; 5] 1 3).
  reflexivity.
Defined.

Lemma ascending_head_Forall (x : Q) (l : list Q) :
  ascending (x :: l) -> Forall (fun y => x <= y) l.
Proof.
  revert x. induction l as [|y l IH]; intros x Ha; [constructor|].
  destruct Ha as [Hxy Ha]. constructor; [exact Hxy|].
  eapply Forall_impl; [|apply (IH y Ha)].
  intros z Hz. cbv beta in Hz. apply Qle_trans with y; assumption.
Qed.

(** The bins of a PSD with ascending frequencies are ordered by frequency. *)
Lemma combine_ordered (freqs psd : list Q) :
  ascending freqs ->
  StronglySorted (fun b1 b2 : Q * Q => fst b1 <= fst b2) (combine freqs psd).
Proof.
  revert psd. induction freqs as [|f freqs IH]; intros psd Ha; [constructor|].
  destruct psd as [|p psd]; [constructor|].
  cbn [combine]. constructor.
  - apply IH. exact (ascending_tail _ _ Ha).
  - apply Forall_forall. intros [f' p'] Hin. cbn [fst].
    pose proof (ascending_head_Forall _ _ Ha) as Hall.
    rewrite Forall_forall in Hall. apply Hall.
    exact (in_combine_l _ _ _ _ Hin).
Qed.

Lemma filter_ordered {A : Type} (R : A -> A -> Prop) (keep : A -> bool)
    (l : list A) :
  StronglySorted R l -> StronglySorted R (filter keep l).
Proof.
  induction 1 as [|x l Hs IH Hall]; [constructor|].
  cbn [filter]. destruct (keep x); [|exact IH].
  constructor; [exact IH|].
  rewrite Forall_forall in *. intros y Hy.
  apply Hall. apply filter_In in Hy. tauto.
Qed.

Lemma trapezoid_nonneg (bins : list (Q * Q)) :
  StronglySorted (fun b1 b2 : Q * Q => fst b1 <= fst b2) bins ->
  Forall (fun b => 0 <= snd b) bins ->
  0 <= trapezoid bins.
Proof.
  induction bins as [|[x0 y0] rest IH]; intros Hs Hp; [apply Qle_refl|].
  destruct rest as [|[x1 y1] rest']; [apply Qle_refl|].
  change (trapezoid ((x0, y0) :: (x1, y1) :: rest'))
    with ((x1 - x0) * (y1 + y0) / 2 + trapezoid ((x1, y1) :: rest')).
  inversion Hs as [|b l Hs' Hall]; subst.
  inversion Hp as [|b l Hy0 Hp']; subst.
  pose proof (IH Hs' Hp') as Hrest.
  inversion Hall as [|b l Hx01 _]; subst.
  inversion Hp' as [|b l Hy1 _]; subst.
  cbn [fst snd] in *.
  assert (Hprod : 0 <= (x1 - x0) * (y1 + y0)).
  { apply Qmult_le_0_compat; lra. }
  assert (Hhalf : 0 <= (x1 - x0) * (y1 + y0) / 2).
  { apply Qle_shift_div_l; [reflexivity|]. lra. }
  lra.
Qed.

(** C9.  On a PSD with ascending frequencies and powers that are not below
    zero, [bandpower] returns a value that is not below zero, for every
    band. *)
Theorem bandpower_nonneg (freqs psd : list Q) (fmin fmax : Q) :
  length freqs = length psd ->
  ascending freqs ->
  Forall (fun p => 0 <= p) psd ->
  exists r, bandpower freqs psd fmin fmax = Ok r /\ 0 <= r.
Proof.
  intros Hlen Ha Hp.
  rewrite (bandpower_bins _ _ _ _ Hlen).
  assert (Hs : StronglySorted (fun b1 b2 : Q * Q => fst b1 <= fst b2)
                 (bins_in_band freqs psd fmin fmax)).
  { apply filter_ordered. apply combine_ordered. exact Ha. }
  assert (Hq : Forall (fun b : Q * Q => 0 <= snd b)
                 (bins_in_band freqs psd fmin fmax)).
  { apply Forall_forall. intros [f p] Hin. cbn [snd].
    apply filter_In in Hin. destruct Hin as [Hin _].
    rewrite Forall_forall in Hp. apply Hp.
    exact (in_combine_r _ _ _ _ Hin). }
  destruct (bins_in_band freqs psd fmin fmax) as [|b bins] eqn:E.
  - exists 0. split; [reflexivity | apply Qle_refl].
  - eexists. split; [reflexivity|].
    rewrite np_trapz_trapezoid. apply trapezoid_nonneg; assumption.
Qed.

Lemma bandpower_nonneg_witness :
  exists r, bandpower [0; 1; 2; 3; 4] [1; 2; 3; 4; 5] 1 3 = Ok r /\ 0 <= r.
Proof.
  apply (bandpower_nonneg [0; 1; 2; 3; 4] [1; 2; 3; 4; 5] 1 3).
  - reflexivity.
  - simpl. repeat split; vm_compute; discriminate.
  - repeat constructor; vm_compute; discriminate.
Defined.

(** C10.  When exactly one bin of the PSD lies in the band, [bandpower]
    returns [0] whatever the power in that bin: the same value as for a band
    without bins. *)
Theorem bandpower_single_bin (freqs psd : list Q) (fmin fmax : Q) :
  length freqs = length psd ->
  length (filter (in_band fmin fmax) freqs) = 1%nat ->
  bandpower freqs psd fmin fmax = Ok 0.
Proof.
  intros Hlen Hone.
  assert (Hbins : length (bins_in_band freqs psd fmin fmax) = 1%nat).
  { rewrite <- Hone. clear Hone. revert psd Hlen.
    induction freqs as [|f freqs IH]; intros psd Hlen; [reflexivity|].
    destruct psd as [|p psd]; [discriminate Hlen|].
    injection Hlen as Hlen. unfold bins_in_band in *.
    cbn [combine filter fst].
    destruct (in_band fmin fmax f); cbn [length]; rewrite (IH psd Hlen);
      reflexivity. }
  rewrite (bandpower_bins _ _ _ _ Hlen).
  destruct (bins_in_band freqs psd fmin fmax) as [|[f p] [|b bins]];
    try discriminate Hbins.
  reflexivity.
Qed.

Lemma bandpower_single_bin_witness :
  bandpower [0; 1; 2; 3; 4] [1; 2; 7; 4; 5] (3 # 2) (5 # 2) = Ok 0.
Proof.
  apply (bandpower_single_bin [0; 1; 2; 3; 4] [1; 2; 7; 4; 5] (3 # 2) (5 # 2));
    reflexivity.
Defined.

(** ** The spectral step *)

Lemma py_min_min (a b : nat) : py_min a b = Nat.min a b.
Proof.
  unfold py_min. destruct (Nat.ltb_spec b a); lia.
Qed.

Lemma getitem_first_default {A : Type} (l : list A) (d : A) :
  l <> [] -> getitem_first l = Ok (hd d l).
Proof. destruct l; [congruence | reflexivity]. Qed.

(** With at most 16 samples or a span that is not positive, the spectral
    step returns the bars it was given, whatever the PSD estimator is. *)
Lemma analyse_skip (welch : list Q -> Q -> nat -> list Q * list Q)
    (yw tw bars : list Q) :
  length yw = length tw ->
  (length yw <= 16)%nat \/ last tw 0 - hd 0 tw <= 0 ->
  analyse welch yw tw bars = Ok bars.
Proof.
  intros Hlen Hskip. unfold analyse.
  destruct (16 <? length yw)%nat eqn:E16; [|reflexivity].
  apply Nat.ltb_lt in E16.
  destruct Hskip as [H16 | Hspan]; [lia|].
  assert (Hne : tw <> []) by (destruct tw; [simpl in Hlen; lia | congruence]).
  rewrite (getitem_last_default tw 0 Hne), (getitem_first_default tw 0 Hne).
  cbn [bind].
  apply Qltb_false in Hspan. rewrite Hspan. reflexivity.
Qed.

(** With more than 16 samples and a positive span, the spectral step sets
    the bars from the PSD of the window, estimated at the window's rate with
    segments of [min(256, len(yw))] samples. *)
Lemma analyse_recompute (welch : list Q -> Q -> nat -> list Q * list Q)
    (yw tw bars : list Q) :
  length yw = length tw ->
  (16 < length yw)%nat -> 0 < last tw 0 - hd 0 tw ->
  analyse welch yw tw bars
  = set_heights BANDS 0
      (fst (welch yw ((len_q yw - 1) / (last tw 0 - hd 0 tw))
              (Nat.min 256 (length yw))))
      (snd (welch yw ((len_q yw - 1) / (last tw 0 - hd 0 tw))
              (Nat.min 256 (length yw))))
      bars.
Proof.
  intros Hlen H16 Hspan. unfold analyse.
  apply Nat.ltb_lt in H16. rewrite H16. apply Nat.ltb_lt in H16.
  assert (Hne : tw <> []) by (destruct tw; [simpl in Hlen; lia | congruence]).
  rewrite (getitem_last_default tw 0 Hne), (getitem_first_default tw 0 Hne).
  cbn [bind].
  apply Qltb_true in Hspan. rewrite Hspan.
  rewrite py_min_min.
  destruct (welch yw ((len_q yw - 1) / (last tw 0 - hd 0 tw))
              (Nat.min 256 (length yw))) as [f Pxx].
  reflexivity.
Qed.

Lemma window_slice_lengths (ts ys : list Q) (tmax W : Q) :
  length ts = length ys ->
  length (fst (window_slice ts ys tmax W))
  = length (snd (window_slice ts ys tmax W)).
Proof.
  intro Hlen. unfold window_slice. cbn [fst snd].
  rewrite !length_skipn, Hlen. reflexivity.
Qed.

Lemma bandpower_total (freqs psd : list Q) (fmin fmax : Q) :
  length freqs = length psd ->
  exists r, bandpower freqs psd fmin fmax = Ok r.
Proof.
  intro Hlen. rewrite (bandpower_bins _ _ _ _ Hlen).
  destruct (bins_in_band freqs psd fmin fmax); eauto.
Qed.

(** On a well-formed PSD and five bars, the loop over [BANDS] gives every
    bar the power of its band. *)
Lemma set_heights_bands (f Pxx bars : list Q) :
  length f = length Pxx ->
  length bars = length BANDS ->
  exists heights,
    set_heights BANDS 0 f Pxx bars = Ok heights /\
    Forall2 (fun band h => bandpower f Pxx (snd (fst band)) (snd band) = Ok h)
      BANDS heights.
Proof.
  intros Hlen Hbars.
  destruct bars as [|b0 [|b1 [|b2 [|b3 [|b4 [|b5 bars]]]]]];
    try discriminate Hbars.
  destruct (bandpower_total f Pxx 0.5 4 Hlen) as [h0 H0].
  destruct (bandpower_total f Pxx 4 8 Hlen) as [h1 H1].
  destruct (bandpower_total f Pxx 8 13 Hlen) as [h2 H2].
  destruct (bandpower_total f Pxx 13 30 Hlen) as [h3 H3].
  destruct (bandpower_total f Pxx 30 45 Hlen) as [h4 H4].
  exists [h0; h1; h2; h3; h4].
  split.
  - unfold BANDS. cbn [set_heights].
    rewrite H0. cbn [bind set_height].
    rewrite H1. cbn [bind set_height].
    rewrite H2. cbn [bind set_height].
    rewrite H3. cbn [bind set_height].
    rewrite H4. cbn [bind set_height].
    reflexivity.
  - unfold BANDS. repeat constructor; cbn [fst snd]; assumption.
Qed.

(** C5.  In a redraw whose window slice has 16 or fewer samples, or a time
    span that is not positive, the spectral step is skipped: the redraw
    succeeds, the bars keep their heights, and the result does not depend on
    the PSD estimator.  With more than 16 samples and a positive span the
    redraw sets the bars to the band powers of the PSD of the slice,
    estimated with segment length [min(256, len(yw))]. *)
Theorem spectral_step_gated
    (welch welch' : list Q -> Q -> nat -> list Q * list Q)
    (a : args) (now : Q) (s : state) (yw tw : list Q) :
  length (ts s) = length (ys s) ->
  ts s <> [] ->
  window_slice (ts s) (ys s) (last (ts s) 0) (window a) = (yw, tw) ->
  ((length yw <= 16)%nat \/ last tw 0 - hd 0 tw <= 0 ->
   exists s',
     redraw welch a now s = Ok s' /\
     bars s' = bars s /\
     redraw welch' a now s = Ok s') /\
  ((16 < length yw)%nat /\ 0 < last tw 0 - hd 0 tw ->
   forall f Pxx,
     welch yw ((len_q yw - 1) / (last tw 0 - hd 0 tw))
       (Nat.min 256 (length yw)) = (f, Pxx) ->
     length f = length Pxx ->
     length (bars s) = length BANDS ->
     exists s',
       redraw welch a now s = Ok s' /\
       Forall2
         (fun band h => bandpower f Pxx (snd (fst band)) (snd band) = Ok h)
         BANDS (bars s')).
Proof.
  intros Hlen Hne Hslice.
  pose proof (window_slice_lengths (ts s) (ys s) (last (ts s) 0) (window a) Hlen)
    as Hlw.
  rewrite Hslice in Hlw. cbn [fst snd] in Hlw.
  destruct (loop_fs_total (ts s) Hne) as [fs Hfs].
  split.
  - intro Hskip.
    unfold redraw.
    rewrite (getitem_last_default (ts s) 0 Hne), Hfs. cbn [bind].
    rewrite Hslice.
    rewrite (analyse_skip welch yw tw (bars s) Hlw Hskip).
    rewrite (analyse_skip welch' yw tw (bars s) Hlw Hskip).
    cbn [bind]. eexists. split; [reflexivity|]. split; reflexivity.
  - intros [H16 Hspan] f Pxx Hwelch Hpsd Hbars.
    destruct (set_heights_bands f Pxx (bars s) Hpsd Hbars)
      as (heights & Hset & Hall).
    unfold redraw.
    rewrite (getitem_last_default (ts s) 0 Hne), Hfs. cbn [bind].
    rewrite Hslice.
    rewrite (analyse_recompute welch yw tw (bars s) Hlw H16 Hspan).
    rewrite Hwelch. cbn [fst snd]. rewrite Hset. cbn [bind].
    eexists. split; [reflexivity|]. exact Hall.
Qed.

Lemma spectral_step_gated_witness :
  ((length (ys burst_state) <= 16)%nat \/
   last (ts burst_state) 0 - hd 0 (ts burst_state) <= 0 ->
   exists s',
     redraw welch_flat args_1s 5 burst_state = Ok s' /\
     bars s' = bars burst_state /\
     redraw (fun _ _ _ => ([], [])) args_1s 5 burst_state = Ok s') /\
  ((16 < length (ys burst_state))%nat /\
   0 < last (ts burst_state) 0 - hd 0 (ts burst_state) ->
   forall f Pxx,
     welch_flat (ys burst_state)
       ((len_q (ys burst_state) - 1)
        / (last (ts burst_state) 0 - hd 0 (ts burst_state)))
       (Nat.min 256 (length (ys burst_state))) = (f, Pxx) ->
     length f = length Pxx ->
     length (bars burst_state) = length BANDS ->
     exists s',
       redraw welch_flat args_1s 5 burst_state = Ok s' /\
       Forall2
         (fun band h => bandpower f Pxx (snd (fst band)) (snd band) = Ok h)
         BANDS (bars s')).
Proof.
  apply (spectral_step_gated welch_flat (fun _ _ _ => ([], [])) args_1s 5
           burst_state (ys burst_state) (ts burst_state)).
  - reflexivity.
  - discriminate.
  - reflexivity.
Defined.

(** ** One iteration of the loop *)

Lemma acquire_buffer (t_start : Q) (tk : tick) (s : state) :
  combine (ts (acquire t_start tk s)) (ys (acquire t_start tk s))
  = combine (ts s ++ map fst (acquired t_start [tk]))
            (ys s ++ map snd (acquired t_start [tk])) /\
  last_redraw (acquire t_start tk s) = last_redraw s /\
  bars (acquire t_start tk s) = bars s /\
  log (acquire t_start tk s) = log s.
Proof.
  unfold acquire, acquired. destruct (reading tk) as [v|]; cbn.
  - repeat split.
  - rewrite !app_nil_r. repeat split.
Qed.

Lemma acquire_ts (t_start : Q) (tk : tick) (s : state) :
  ts (acquire t_start tk s) = ts s ++ map fst (acquired t_start [tk]) /\
  ys (acquire t_start tk s) = ys s ++ map snd (acquired t_start [tk]).
Proof.
  unfold acquire, acquired. destruct (reading tk) as [v|]; cbn.
  - split; reflexivity.
  - rewrite !app_nil_r. split; reflexivity.
Qed.

(** The pacing either raises [OverflowError] on its sleep, or touches
    nothing but the log, where it adds at most a sleep. *)
Lemma pace_cases (a : args) (s : state) :
  pace a s = Raise OverflowError \/
  exists s2,
    pace a s = Ok s2 /\
    ts s2 = ts s /\ ys s2 = ys s /\
    last_redraw s2 = last_redraw s /\ bars s2 = bars s /\
    publish_times (log s2) = publish_times (log s) /\
    publish_sizes (log s2) = publish_sizes (log s).
Proof.
  unfold pace. destruct (Qltb 0 (target_hz a)) eqn:E.
  - apply Qltb_true in E. rewrite (py_div_pos _ _ E). cbn [bind].
    unfold py_sleep.
    destruct (Qltb SLEEP_MAX (py_max 0 (1 / target_hz a - 0.0005)));
      cbn [bind]; [left; reflexivity|].
    right. eexists. split; [reflexivity|]. cbn. repeat split.
  - right. exists s. repeat split.
Qed.

Lemma py_sleep_accepted (a : args) :
  0 < target_hz a ->
  (py_sleep (py_max 0 (1 / target_hz a - 0.0005)) = Ok tt <->
   sleep_accepted a).
Proof.
  intro Hpos. unfold py_sleep, sleep_accepted, py_max. split.
  - destruct (Qltb SLEEP_MAX _) eqn:E; [discriminate|]. intros _.
    apply Qltb_false in E. right.
    destruct (Qltb 0 (1 / target_hz a - 0.0005)) eqn:E0; [exact E|].
    apply Qltb_false in E0. lra.
  - intros [Hle | Hle]; [exfalso; apply (Qlt_not_le _ _ Hpos Hle)|].
    assert (H0 : 0 <= SLEEP_MAX) by (vm_compute; discriminate).
    assert (E : Qltb SLEEP_MAX
                  (if Qltb 0 (1 / target_hz a - 0.0005)
                   then 1 / target_hz a - 0.0005 else 0) = false).
    { apply Qltb_false.
      destruct (Qltb 0 (1 / target_hz a - 0.0005)); assumption. }
    rewrite E. reflexivity.
Qed.

(** A sleep that [time.sleep] accepts lets the pacing through. *)
Lemma pace_ok (a : args) (s : state) :
  sleep_accepted a ->
  exists s2,
    pace a s = Ok s2 /\
    ts s2 = ts s /\ ys s2 = ys s /\
    last_redraw s2 = last_redraw s /\ bars s2 = bars s /\
    publish_times (log s2) = publish_times (log s) /\
    publish_sizes (log s2) = publish_sizes (log s).
Proof.
  intro Hacc.
  destruct (pace_cases a s) as [Hraise | Hok]; [|exact Hok].
  exfalso. unfold pace in Hraise.
  destruct (Qltb 0 (target_hz a)) eqn:E; [|discriminate Hraise].
  apply Qltb_true in E. rewrite (py_div_pos _ _ E) in Hraise.
  cbn [bind] in Hraise.
  apply (py_sleep_accepted a E) in Hacc. rewrite Hacc in Hraise.
  discriminate Hraise.
Qed.

(** A sleep beyond what [time.sleep] accepts stops the pacing. *)
Lemma pace_raises (a : args) (s : state) :
  ~ sleep_accepted a -> pace a s = Raise OverflowError.
Proof.
  intro Hno. unfold pace.
  destruct (Qltb 0 (target_hz a)) eqn:E.
  - apply Qltb_true in E. rewrite (py_div_pos _ _ E). cbn [bind].
    destruct (py_sleep (py_max 0 (1 / target_hz a - 0.0005))) as [[]|e] eqn:Hs.
    + exfalso. apply Hno. apply (py_sleep_accepted a E). exact Hs.
    + unfold py_sleep in Hs.
      destruct (Qltb SLEEP_MAX _); [|discriminate Hs].
      injection Hs as <-. reflexivity.
  - exfalso. apply Hno. left. apply Qltb_false. exact E.
Qed.

Lemma redraw_shape (welch : list Q -> Q -> nat -> list Q * list Q)
    (a : args) (now : Q) (s s3 : state) :
  redraw welch a now s = Ok s3 ->
  ts s3 = ts s /\ ys s3 = ys s /\
  last_redraw s3 = now /\
  publish_times (log s3) = now :: publish_times (log s) /\
  publish_sizes (log s3) = length (ts s) :: publish_sizes (log s).
Proof.
  unfold redraw. intro H.
  destruct (getitem_last (ts s)) as [tmax|e]; cbn [bind] in H; [|discriminate H].
  destruct (loop_fs (ts s)) as [fs|e]; cbn [bind] in H; [|discriminate H].
  destruct (window_slice (ts s) (ys s) tmax (window a)) as [yw tw].
  destruct (analyse welch yw tw (bars s)) as [bars'|e]; cbn [bind] in H;
    [|discriminate H].
  injection H as H. subst s3. cbn. repeat split.
Qed.

(** The exit test never fails. *)
Lemma finished_value (a : args) (s : state) :
  finished a s
  = Ok (truthy (duration a) && nonempty (ts s)
        && Qleb (duration a) (last (ts s) 0)).
Proof.
  unfold finished.
  destruct (truthy (duration a)); [|reflexivity].
  destruct (ts s) as [|t rest] eqn:E; [reflexivity|].
  cbn [nonempty andb].
  rewrite (getitem_last_default (t :: rest) 0) by congruence.
  reflexivity.
Qed.

(** What one pass of the loop does to the buffer and to the redraw record:
    the buffer is the old one plus the tick's sample, and either no redraw
    happened, or one happened at the tick's clock, more than 0.1 s after
    the previous one and on a buffer of at least 3 samples. *)
Lemma iteration_effect (welch : list Q -> Q -> nat -> list Q * list Q)
    (a : args) (t_start : Q) (tk : tick) (s s' : state) (o : outcome) :
  iteration welch a t_start tk s = (s', o) ->
  ts s' = ts s ++ map fst (acquired t_start [tk]) /\
  ys s' = ys s ++ map snd (acquired t_start [tk]) /\
  ((last_redraw s' = last_redraw s /\
    publish_times (log s') = publish_times (log s) /\
    publish_sizes (log s') = publish_sizes (log s))
   \/
   (0.1 < clock_now tk - last_redraw s /\
    (3 <= length (ts s'))%nat /\
    last_redraw s' = clock_now tk /\
    publish_times (log s') = clock_now tk :: publish_times (log s) /\
    publish_sizes (log s') = length (ts s') :: publish_sizes (log s))).
Proof.
  unfold iteration. intro H.
  destruct (acquire_ts t_start tk s) as [Hts Hys].
  destruct (acquire_buffer t_start tk s) as (_ & Hlr & _ & Hlog).
  destruct (pace_cases a (acquire t_start tk s))
    as [Hpace | (s2 & Hpace & Hts2 & Hys2 & Hlr2 & _ & Hpt2 & Hps2)];
    rewrite Hpace in H.
  { injection H as H _. subst s'.
    split; [exact Hts|]. split; [exact Hys|]. left.
    split; [exact Hlr|]. split; [rewrite Hlog; reflexivity|].
    rewrite Hlog. reflexivity. }
  rewrite Hts in Hts2. rewrite Hys in Hys2.
  rewrite Hlr in Hlr2. rewrite Hlog in Hpt2, Hps2.
  destruct (gate (clock_now tk) s2) eqn:Hgate.
  - destruct (redraw welch a (clock_now tk) s2) as [s3|e] eqn:Hred.
    + destruct (redraw_shape welch a _ s2 s3 Hred)
        as (Hts3 & Hys3 & Hlr3 & Hpt3 & Hps3).
      assert (Hs' : s' = s3).
      { rewrite finished_value in H.
        destruct (truthy (duration a) && nonempty (ts s3)
                  && Qleb (duration a) (last (ts s3) 0));
          injection H as H _; congruence. }
      subst s'.
      split; [congruence|]. split; [congruence|]. right.
      unfold gate in Hgate. apply andb_true_iff in Hgate.
      destruct Hgate as [Hg1 Hg2].
      apply Qltb_true in Hg1. apply Nat.ltb_lt in Hg2.
      rewrite Hlr2 in Hg1.
      split; [exact Hg1|]. split; [rewrite Hts3; lia|].
      split; [exact Hlr3|].
      split; [rewrite Hpt3, Hpt2; reflexivity|].
      rewrite Hps3, Hps2, Hts3. reflexivity.
    + injection H as H _. subst s'.
      split; [exact Hts2|]. split; [exact Hys2|]. left.
      split; [exact Hlr2|]. split; [exact Hpt2 | exact Hps2].
  - assert (Hs' : s' = s2).
    { rewrite finished_value in H.
      destruct (truthy (duration a) && nonempty (ts s2)
                && Qleb (duration a) (last (ts s2) 0));
        injection H as H _; congruence. }
    subst s'.
    split; [exact Hts2|]. split; [exact Hys2|]. left.
    split; [exact Hlr2|]. split; [exact Hpt2 | exact Hps2].
Qed.

(** How one pass of the loop ends: with [break] exactly when the exit test
    holds on the state it leaves, unless the redraw raised. *)
Lemma iteration_outcome (welch : list Q -> Q -> nat -> list Q * list Q)
    (a : args) (t_start : Q) (tk : tick) (s s' : state) (o : outcome) :
  iteration welch a t_start tk s = (s', o) ->
  (o = Break /\ finished a s' = Ok true) \/
  (o = Continue /\ finished a s' = Ok false) \/
  (exists e, o = Raised e).
Proof.
  unfold iteration. intro H.
  destruct (pace_cases a (acquire t_start tk s)) as [Hpace | (s2 & Hpace & _)];
    rewrite Hpace in H.
  { injection H as _ H. right. right. exists OverflowError.
    symmetry. exact H. }
  destruct (if gate (clock_now tk) s2 then redraw welch a (clock_now tk) s2
            else Ok s2) as [s3|e].
  - destruct (finished a s3) as [[|]|e] eqn:Hfin.
    + injection H as H1 H2. subst. left. split; [reflexivity | exact Hfin].
    + injection H as H1 H2. subst. right. left.
      split; [reflexivity | exact Hfin].
    + rewrite finished_value in Hfin. discriminate Hfin.
  - injection H as _ H. right. right. exists e. symmetry. exact H.
Qed.

(** ** The redraw throttle *)

Lemma iteration_throttled (welch : list Q -> Q -> nat -> list Q * list Q)
    (a : args) (t_start : Q) (tk : tick) (s s' : state) (o : outcome) :
  iteration welch a t_start tk s = (s', o) ->
  throttled s -> throttled s'.
Proof.
  intros Hit (Hsorted & Hbound & Hsizes).
  destruct (iteration_effect welch a t_start tk s s' o Hit)
    as (_ & _ & [(Hlr & Hpt & Hps) | (Hgap & Hn & Hlr & Hpt & Hps)]).
  - unfold throttled. rewrite Hlr, Hpt, Hps. repeat split; assumption.
  - unfold throttled. rewrite Hlr, Hpt, Hps. repeat split.
    + constructor; [exact Hsorted|].
      eapply Forall_impl; [|exact Hbound].
      intros p Hp. cbv beta in Hp. lra.
    + constructor; [apply Qle_refl|].
      eapply Forall_impl; [|exact Hbound].
      intros p Hp. cbv beta in Hp. lra.
    + constructor; [exact Hn | exact Hsizes].
Qed.

Lemma run_throttled (welch : list Q -> Q -> nat -> list Q * list Q)
    (a : args) (t_start : Q) (ticks : list tick) (s : state) :
  throttled s -> throttled (fst (run welch a t_start ticks s)).
Proof.
  revert s. induction ticks as [|tk rest IH]; intros s Hs; [exact Hs|].
  cbn [run].
  destruct (iteration welch a t_start tk s) as [s' o] eqn:Hit.
  pose proof (iteration_throttled welch a t_start tk s s' o Hit Hs) as Hs'.
  destruct o; [apply IH; exact Hs' | exact Hs' | exact Hs' | exact Hs'].
Qed.

Lemma init_throttled : throttled init.
Proof. unfold throttled, init. cbn. repeat split; constructor. Qed.

(** C7.  In every run, any two redraws are more than 0.1 s of clock time
    apart and every redraw saw at least 3 samples; and every pass of the
    loop appends the sample of its tick to the buffer, whatever the state
    of the throttle. *)
Theorem redraw_throttled_acquisition_not
    (welch : list Q -> Q -> nat -> list Q * list Q)
    (a : args) (t_start : Q) (ticks : list tick) :
  StronglySorted (fun later earlier => 0.1 < later - earlier)
    (publish_times (log (fst (run welch a t_start ticks init)))) /\
  Forall (fun n => (3 <= n)%nat)
    (publish_sizes (log (fst (run welch a t_start ticks init)))) /\
  (forall tk s,
     ts (fst (iteration welch a t_start tk s))
     = ts s ++ map fst (acquired t_start [tk]) /\
     ys (fst (iteration welch a t_start tk s))
     = ys s ++ map snd (acquired t_start [tk])).
Proof.
  destruct (run_throttled welch a t_start ticks init init_throttled)
    as (Hsorted & _ & Hsizes).
  split; [exact Hsorted|]. split; [exact Hsizes|].
  intros tk s.
  destruct (iteration welch a t_start tk s) as [s' o] eqn:Hit.
  destruct (iteration_effect welch a t_start tk s s' o Hit) as (Hts & Hys & _).
  cbn [fst]. split; assumption.
Qed.

(** ** Export and exit *)

Lemma combine_app_same {A B : Type} (l1 l2 : list A) (m1 m2 : list B) :
  length l1 = length m1 ->
  combine (l1 ++ l2) (m1 ++ m2) = combine l1 m1 ++ combine l2 m2.
Proof.
  revert m1. induction l1 as [|x l1 IH]; intros m1 Hlen.
  - destruct m1; [reflexivity | discriminate Hlen].
  - destruct m1 as [|y m1]; [discriminate Hlen|].
    injection Hlen as Hlen. cbn [app combine]. rewrite (IH m1 Hlen).
    reflexivity.
Qed.

Lemma combine_fst_snd {A B : Type} (l : list (A * B)) :
  combine (map fst l) (map snd l) = l.
Proof.
  induction l as [|[x y] l IH]; [reflexivity|].
  cbn [map combine fst snd]. rewrite IH. reflexivity.
Qed.

Lemma acquired_app (t_start : Q) (l1 l2 : list tick) :
  acquired t_start (l1 ++ l2) = acquired t_start l1 ++ acquired t_start l2.
Proof.
  induction l1 as [|tk l1 IH]; [reflexivity|].
  cbn [app acquired]. destruct (reading tk); rewrite IH; reflexivity.
Qed.

(** The buffer after a run is the buffer before it followed by the samples
    of the ticks that were processed, in order; after Ctrl-C these are all
    the ticks. *)
Lemma run_buffer (welch : list Q -> Q -> nat -> list Q * list Q)
    (a : args) (t_start : Q) (ticks : list tick) (s : state) :
  length (ts s) = length (ys s) ->
  exists n,
    (n <= length ticks)%nat /\
    length (ts (fst (run welch a t_start ticks s)))
    = length (ys (fst (run welch a t_start ticks s))) /\
    combine (ts (fst (run welch a t_start ticks s)))
            (ys (fst (run welch a t_start ticks s)))
    = combine (ts s) (ys s) ++ acquired t_start (firstn n ticks) /\
    (snd (run welch a t_start ticks s) = Interrupted -> n = length ticks).
Proof.
  revert s. induction ticks as [|tk rest IH]; intros s Hlen.
  - exists 0%nat. cbn. rewrite app_nil_r. repeat split; [lia | exact Hlen].
  - cbn [run].
    destruct (iteration welch a t_start tk s) as [s' o] eqn:Hit.
    destruct (iteration_effect welch a t_start tk s s' o Hit) as (Hts & Hys & _).
    assert (Hlen' : length (ts s') = length (ys s')).
    { rewrite Hts, Hys, !length_app, !length_map, Hlen. reflexivity. }
    assert (Hbuf : combine (ts s') (ys s')
                   = combine (ts s) (ys s) ++ acquired t_start [tk]).
    { rewrite Hts, Hys, (combine_app_same _ _ _ _ Hlen), combine_fst_snd.
      reflexivity. }
    assert (Hstop : exists n,
               (n <= length (tk :: rest))%nat /\
               length (ts s') = length (ys s') /\
               combine (ts s') (ys s')
               = combine (ts s) (ys s)
                 ++ acquired t_start (firstn n (tk :: rest)) /\
               (o = Interrupted -> n = length (tk :: rest))).
    { exists 1%nat. cbn [firstn length]. split; [lia|].
      split; [exact Hlen'|]. split; [exact Hbuf|].
      intro Ho. exfalso.
      destruct (iteration_outcome welch a t_start tk s s' o Hit)
        as [[Ho' _] | [[Ho' _] | [e Ho']]]; congruence. }
    destruct o; try exact Hstop.
    destruct (IH s' Hlen') as (n & Hn & Hl & Hc & Hi).
    exists (S n). cbn [firstn length]. split; [lia|].
    split; [exact Hl|]. split.
    + rewrite Hc, Hbuf, <- app_assoc.
      change (tk :: firstn n rest) with ([tk] ++ firstn n rest).
      rewrite acquired_app. reflexivity.
    + intro Ho. rewrite (Hi Ho). reflexivity.
Qed.

(** ** Leaving the loop *)

(** With a PSD estimator of the right shape the redraw of a non-empty,
    well-shaped state succeeds and keeps the shape. *)
Lemma redraw_total (welch : list Q -> Q -> nat -> list Q * list Q)
    (a : args) (now : Q) (s : state) :
  psd_shaped welch -> well_shaped s -> ts s <> [] ->
  exists s', redraw welch a now s = Ok s' /\ well_shaped s'.
Proof.
  intros Hw [Hlen Hbars] Hne.
  destruct (loop_fs_total (ts s) Hne) as [fs Hfs].
  unfold redraw.
  rewrite (getitem_last_default (ts s) 0 Hne), Hfs. cbn [bind].
  pose proof (window_slice_lengths (ts s) (ys s) (last (ts s) 0) (window a) Hlen)
    as Hlw.
  destruct (window_slice (ts s) (ys s) (last (ts s) 0) (window a)) as [yw tw].
  cbn [fst snd] in Hlw.
  assert (Han : exists bars', analyse welch yw tw (bars s) = Ok bars' /\
                              length bars' = length BANDS).
  { destruct (le_lt_dec (length yw) 16) as [H16 | H16].
    - rewrite (analyse_skip welch yw tw (bars s) Hlw (or_introl H16)). eauto.
    - destruct (Qlt_le_dec 0 (last tw 0 - hd 0 tw)) as [Hspan | Hspan].
      + rewrite (analyse_recompute welch yw tw (bars s) Hlw H16 Hspan).
        destruct (set_heights_bands _ _ (bars s)
                    (Hw yw ((len_q yw - 1) / (last tw 0 - hd 0 tw))
                        (Nat.min 256 (length yw))) Hbars)
          as (heights & Hset & Hall).
        exists heights. split; [exact Hset|].
        symmetry. exact (Forall2_length Hall).
      + rewrite (analyse_skip welch yw tw (bars s) Hlw (or_intror Hspan)).
        eauto. }
  destruct Han as (bars' & Han & Hb').
  rewrite Han. cbn [bind]. eexists. split; [reflexivity|].
  split; [exact Hlen | exact Hb'].
Qed.

(** With a PSD estimator of the right shape and a sleep that [time.sleep]
    accepts, a pass of the loop on a well-shaped state raises nothing: it
    ends in [break] or goes on. *)
Lemma iteration_no_raise (welch : list Q -> Q -> nat -> list Q * list Q)
    (a : args) (t_start : Q) (tk : tick) (s s' : state) (o : outcome) :
  psd_shaped welch -> sleep_accepted a -> well_shaped s ->
  iteration welch a t_start tk s = (s', o) ->
  well_shaped s' /\ (o = Break \/ o = Continue).
Proof.
  intros Hw Hacc [Hlen Hbars] Hit.
  pose proof Hit as Hit'.
  unfold iteration in Hit.
  destruct (acquire_ts t_start tk s) as [Hts Hys].
  destruct (acquire_buffer t_start tk s) as (_ & _ & Hb & _).
  destruct (pace_ok a (acquire t_start tk s) Hacc)
    as (s2 & Hpace & Hts2 & Hys2 & _ & Hb2 & _).
  rewrite Hpace in Hit.
  assert (Hs2 : well_shaped s2).
  { split.
    - rewrite Hts2, Hys2, Hts, Hys, !length_app, !length_map, Hlen. reflexivity.
    - rewrite Hb2, Hb. exact Hbars. }
  assert (Hdrawn : exists s3,
             (if gate (clock_now tk) s2
              then redraw welch a (clock_now tk) s2 else Ok s2) = Ok s3 /\
             well_shaped s3).
  { destruct (gate (clock_now tk) s2) eqn:Hgate; [|eauto].
    apply redraw_total; [exact Hw | exact Hs2 |].
    unfold gate in Hgate. apply andb_true_iff in Hgate.
    destruct Hgate as [_ Hg]. apply Nat.ltb_lt in Hg.
    destruct (ts s2); [simpl in Hg; lia | congruence]. }
  destruct Hdrawn as (s3 & Hdrawn & Hs3).
  rewrite Hdrawn, finished_value in Hit.
  destruct (truthy (duration a) && nonempty (ts s3)
            && Qleb (duration a) (last (ts s3) 0));
    injection Hit as H1 H2; subst; split; auto.
Qed.

Lemma finished_true_iff (a : args) (s : state) :
  finished a s = Ok true <->
  ~ duration a == 0 /\
  exists t_last, getitem_last (ts s) = Ok t_last /\ duration a <= t_last.
Proof.
  rewrite finished_value. unfold truthy. split.
  - intro H. injection H as H.
    apply andb_true_iff in H. destruct H as [H Hle].
    apply andb_true_iff in H. destruct H as [Hd Hne].
    apply negb_true_iff in Hd. apply Qeq_bool_neq in Hd.
    split; [exact Hd|].
    exists (last (ts s) 0). split.
    + apply getitem_last_default. destruct (ts s); [discriminate Hne | congruence].
    + apply Qleb_true. exact Hle.
  - intros (Hd & t_last & Hlast & Hle).
    assert (Hne : ts s <> []) by (destruct (ts s); [discriminate Hlast | congruence]).
    rewrite (getitem_last_default (ts s) 0 Hne) in Hlast.
    injection Hlast as Hlast. subst t_last.
    apply Qleb_true in Hle. rewrite Hle.
    destruct (Qeq_bool (duration a) 0) eqn:E;
      [apply Qeq_bool_iff in E; contradiction|].
    destruct (ts s); [congruence | reflexivity].
Qed.

(** C2, a counterexample to the claim as stated: a run asked to last one
    second whose sensor never delivers a value.  Five seconds after the
    start the pass of the loop goes on instead of leaving, and the run is
    still in the loop 100 s after the start, when Ctrl-C arrives. *)
Lemma loop_outlives_duration_without_samples :
  0 < duration args_1s /\
  duration args_1s <= clock_now (silent 1005) - 1000 /\
  snd (iteration welch_flat args_1s 1000 (silent 1005) init) = Continue /\
  snd (run welch_flat args_1s 1000
         [silent 1000.5; silent 1005; silent 1100] init) = Interrupted.
Proof.
  split; [reflexivity|]. split; [vm_compute; discriminate|].
  split; reflexivity.
Qed.

Lemma args_1s_sleep_accepted : sleep_accepted args_1s.
Proof. right. vm_compute. discriminate. Qed.

Lemma welch_flat_shaped : psd_shaped welch_flat.
Proof.
  intros yw fs nperseg. unfold welch_flat. cbn [fst snd].
  rewrite !length_map. reflexivity.
Qed.

(** ** Worked runs *)

(** [np.searchsorted] on small arrays: the first index whose entry is not
    below the key. *)
Example searchsorted_examples :
  searchsorted [0; 1; 2; 2; 2; 3; 4] 2 = 2%nat /\
  searchsorted [0; 1; 2; 3] (5 # 2) = 3%nat /\
  searchsorted [0; 1; 2; 3] 7 = 4%nat /\
  searchsorted [] 7 = 0%nat.
Proof. repeat split. Qed.

(** Three bins in the band: two trapezoids of area 5/2 and 7/2. *)
Example bandpower_three_bins :
  exists r, bandpower [0; 1; 2; 3; 4] [1; 2; 3; 4; 5] 1 3 = Ok r /\ r == 6.
Proof. eexists. split; reflexivity. Qed.

(** A mask of another length than the array raises. *)
Example bandpower_ragged :
  bandpower [0; 1; 2; 3; 4] [1; 1; 1; 1] 1 3 = Raise IndexError.
Proof. reflexivity. Qed.

(** Scenario C: fifty samples over one second. *)
Example fifty_samples_rate :
  exists fs, summary fifty_in_one_second = Ok (Some (50%nat, fs)) /\ fs == 49.
Proof. eexists. split; [vm_compute; reflexivity | vm_compute; reflexivity]. Qed.

(** A run of four samples asked to last one second: the first redraw comes
    with the third sample, the second with the fourth (a second later), and
    the loop leaves on the fourth sample, whose timestamp is 1.3 s. *)
Example run_four_samples :
  let r := run welch_flat args_1s 1000
             [sample (1 # 2) 1000.1; sample (1 # 2) 1000.2;
              sample (1 # 2) 1000.3; sample (1 # 2) 1001.3;
              sample (1 # 2) 1001.4] init in
  snd r = Break /\
  length (ts (fst r)) = 4%nat /\
  publish_times (log (fst r)) = [1001.3 + 0.01; 1000.3 + 0.01] /\
  publish_sizes (log (fst r)) = [4%nat; 3%nat].
Proof. vm_compute. repeat split. Qed.

(** The spectral step on 17 samples over 0.16 s (100 Hz, bins 100/17 Hz
    apart) replaces the bars by the band powers of the flat PSD: nothing for
    the bands with no bin or one bin, the width between the outer bins for
    beta and gamma.  On 16 samples it leaves the bars. *)
Example analyse_17_and_16 :
  (exists heights,
     analyse welch_flat (repeat 1 17)
       (map (fun k => inject_Z (Z.of_nat k) / 100) (seq 0 17)) [1; 2; 3; 4; 5]
     = Ok heights /\
     Forall2 Qeq heights [0; 0; 0; 200 # 17; 100 # 17]) /\
  analyse welch_flat (repeat 1 16)
    (map (fun k => inject_Z (Z.of_nat k) / 100) (seq 0 16)) [1; 2; 3; 4; 5]
  = Ok [1; 2; 3; 4; 5].
Proof.
  split.
  - eexists. split; [vm_compute; reflexivity|].
    repeat constructor; reflexivity.
  - vm_compute. reflexivity.
Qed.

(** ** More on the rate estimate and the cleanup *)

Lemma len_q_ge_2 {A : Type} (l : list A) :
  (2 <= length l)%nat -> 0 < len_q l - 1.
Proof.
  intro H. unfold len_q.
  assert (H2 : inject_Z 2 <= inject_Z (Z.of_nat (length l))).
  { rewrite <- Zle_Qle. lia. }
  change (inject_Z 2) with 2 in H2. lra.
Qed.

Lemma last_hd_single_span (t : Q) (l : list Q) :
  0 < last (t :: l) 0 - t -> (2 <= length (t :: l))%nat.
Proof.
  destruct l as [|u l]; [|simpl; lia].
  cbn [last]. intro H. exfalso. lra.
Qed.

(** X1.  The estimate in the loop on a non-empty buffer: [nan] when the
    span [ts[-1] - ts[0]] is not positive, and otherwise the positive number
    [(n - 1) / span]; it never raises. *)
Theorem loop_fs_nan_or_positive (ts : list Q) :
  ts <> [] ->
  (last ts 0 - hd 0 ts <= 0 -> loop_fs ts = Ok NaN) /\
  (0 < last ts 0 - hd 0 ts ->
   loop_fs ts = Ok (Num ((len_q ts - 1) / (last ts 0 - hd 0 ts))) /\
   0 < (len_q ts - 1) / (last ts 0 - hd 0 ts)).
Proof.
  intro Hne. unfold loop_fs.
  rewrite (getitem_last_default ts 0 Hne).
  destruct ts as [|t0 rest]; [congruence|].
  cbn [bind getitem_first hd].
  split.
  - intro Hle. apply Qltb_false in Hle. rewrite Hle. reflexivity.
  - intro Hpos. pose proof Hpos as Hb.
    apply Qltb_true in Hb. rewrite Hb.
    rewrite (py_div_pos _ _ Hpos). cbn [bind]. split; [reflexivity|].
    apply Qlt_shift_div_l; [exact Hpos|].
    pose proof (len_q_ge_2 (t0 :: rest) (last_hd_single_span t0 rest Hpos)).
    lra.
Qed.

Lemma loop_fs_nan_or_positive_witness :
  (last [0; 1 # 2; 1] 0 - hd 0 [0; 1 # 2; 1] <= 0 ->
   loop_fs [0; 1 # 2; 1] = Ok NaN) /\
  (0 < last [0; 1 # 2; 1] 0 - hd 0 [0; 1 # 2; 1] ->
   loop_fs [0; 1 # 2; 1]
   = Ok (Num ((len_q [0; 1 # 2; 1] - 1)
              / (last [0; 1 # 2; 1] 0 - hd 0 [0; 1 # 2; 1]))) /\
   0 < (len_q [0; 1 # 2; 1] - 1)
       / (last [0; 1 # 2; 1] 0 - hd 0 [0; 1 # 2; 1])).
Proof.
  apply (loop_fs_nan_or_positive [0; 1 # 2; 1]). discriminate.
Defined.




(** ** More on the window selection *)

Lemma filter_all {A : Type} (f : A -> bool) (l : list A) :
  Forall (fun x => f x = true) l -> filter f l = l.
Proof.
  induction 1 as [|x l Hx _ IH]; [reflexivity|].
  cbn [filter]. rewrite Hx, IH. reflexivity.
Qed.

Lemma filter_none {A : Type} (f : A -> bool) (l : list A) :
  Forall (fun x => f x = false) l -> filter f l = [].
Proof.
  induction 1 as [|x l Hx _ IH]; [reflexivity|].
  cbn [filter]. rewrite Hx, IH. reflexivity.
Qed.

(** The count of entries below the key, by a scan of the whole array. *)
Lemma searchsorted_count (a : list Q) (key : Q) :
  ascending a ->
  searchsorted a key = length (filter (fun t => Qltb t key) a).
Proof.
  intro Ha.
  destruct (searchsorted_split a key Ha) as (Hn & Hpre & Hsuf).
  rewrite <- (firstn_skipn (searchsorted a key) a) at 2.
  rewrite filter_app, filter_all, filter_none.
  - rewrite app_nil_r, length_firstn. lia.
  - eapply Forall_impl; [|exact Hsuf].
    intros t Ht. apply Qltb_false. exact Ht.
  - eapply Forall_impl; [|exact Hpre].
    intros t Ht. apply Qltb_true. exact Ht.
Qed.

(** X3.  On an ascending array the binary search of [np.searchsorted]
    returns the number of entries below the key, the answer of a linear
    scan; the index is never beyond the end of the array. *)
Theorem searchsorted_is_linear_count (a : list Q) (key : Q) :
  ascending a ->
  searchsorted a key = length (filter (fun t => Qltb t key) a) /\
  (searchsorted a key <= length a)%nat.
Proof.
  intro Ha. split; [apply searchsorted_count; exact Ha|].
  apply (searchsorted_split a key Ha).
Qed.

Lemma searchsorted_is_linear_count_witness :
  searchsorted [0; 1; 2; 2; 3] 2
  = length (filter (fun t => Qltb t 2) [0; 1; 2; 2; 3]) /\
  (searchsorted [0; 1; 2; 2; 3]%Q 2%Q <= length [0; 1; 2; 2; 3]%Q)%nat.
Proof.
  apply (searchsorted_is_linear_count [0; 1; 2; 2; 3] 2).
  simpl. repeat split; vm_compute; discriminate.
Defined.

Lemma ascending_skipn (l : list Q) (k : nat) :
  ascending l -> ascending (skipn k l).
Proof.
  revert l. induction k as [|k IH]; intros l Ha; [exact Ha|].
  destruct l as [|x l]; [exact I|].
  cbn [skipn]. apply IH. exact (ascending_tail _ _ Ha).
Qed.

Lemma window_slice_drop_prefix (ts ys : list Q) (tmax W : Q) (k : nat) :
  ascending ts ->
  (k <= searchsorted ts (py_max 0 (tmax - W)))%nat ->
  window_slice (skipn k ts) (skipn k ys) tmax W = window_slice ts ys tmax W.
Proof.
  intros Ha Hk. unfold window_slice.
  set (key := py_max 0 (tmax - W)) in *.
  destruct (searchsorted_split ts key Ha) as (Hn & Hpre & _).
  assert (Hidx : (searchsorted (skipn k ts) key + k)%nat = searchsorted ts key).
  { assert (Hsub : Forall (fun t => t < key) (firstn k ts)).
    { rewrite <- (Nat.min_l k (searchsorted ts key) Hk).
      rewrite <- firstn_firstn. apply Forall_firstn. exact Hpre. }
    assert (Hcount : length (filter (fun t => Qltb t key) ts)
                     = (k + length (filter (fun t => Qltb t key) (skipn k ts)))%nat).
    { rewrite <- (firstn_skipn k ts) at 1.
      rewrite filter_app, length_app, filter_all.
      - rewrite length_firstn. lia.
      - eapply Forall_impl; [|exact Hsub].
        intros t Ht. apply Qltb_true. exact Ht. }
    rewrite (searchsorted_count (skipn k ts) key (ascending_skipn ts k Ha)).
    rewrite (searchsorted_count ts key Ha). lia. }
  rewrite !skipn_skipn, Hidx. reflexivity.
Qed.

(** X4.  Dropping samples from the front of an ascending buffer, up to
    the start of the window, does not change the slice: the window
    selection looks only at the tail of the history. *)
Theorem window_slice_prefix_independent
    (ts ys : list Q) (tmax W : Q) (k : nat) :
  ascending ts ->
  (k <= searchsorted ts (py_max 0 (tmax - W)))%nat ->
  window_slice (skipn k ts) (skipn k ys) tmax W = window_slice ts ys tmax W /\
  window_slice (snd (window_slice ts ys tmax W))
               (fst (window_slice ts ys tmax W)) tmax W
  = window_slice ts ys tmax W.
Proof.
  intros Ha Hk. split.
  - apply window_slice_drop_prefix; assumption.
  - unfold window_slice at 2 3. cbn [fst snd].
    apply window_slice_drop_prefix; [exact Ha | lia].
Qed.

Lemma window_slice_prefix_independent_witness :
  window_slice (skipn 1 [0; 1; 2; 3]) (skipn 1 [10; 20; 30; 40]) 3 (3 # 2)
  = window_slice [0; 1; 2; 3] [10; 20; 30; 40] 3 (3 # 2) /\
  window_slice (snd (window_slice [0; 1; 2; 3] [10; 20; 30; 40] 3 (3 # 2)))
               (fst (window_slice [0; 1; 2; 3] [10; 20; 30; 40] 3 (3 # 2)))
               3 (3 # 2)
  = window_slice [0; 1; 2; 3] [10; 20; 30; 40] 3 (3 # 2).
Proof.
  apply (window_slice_prefix_independent
           [0; 1; 2; 3] [10; 20; 30; 40] 3 (3 # 2) 1).
  - simpl. repeat split; vm_compute; discriminate.
  - vm_compute. lia.
Defined.

Lemma last_skipn (l : list Q) (n : nat) :
  (n < length l)%nat -> last (skipn n l) 0 = last l 0.
Proof.
  revert l. induction n as [|n IH]; intros l Hn; [reflexivity|].
  destruct l as [|x l]; [simpl in Hn; lia|].
  simpl in Hn. cbn [skipn]. rewrite IH by lia.
  destruct l as [|y l]; [simpl in Hn; lia | reflexivity].
Qed.

Lemma last_In (l : list Q) : l <> [] -> In (last l 0) l.
Proof.
  induction l as [|x l IH]; [congruence|]. intros _.
  destruct l as [|y l]; [left; reflexivity|].
  right. apply IH. congruence.
Qed.

(** X5.  In exact arithmetic: for a non-empty ascending buffer of
    timestamps not below zero and a window [W >= 0] measured back from the
    newest sample, the slice is not empty, ends with the newest sample, and
    spans at most [W] seconds.  (In floating point the rounding of
    [tmax - W] can let the span pass [W] by an ulp.) *)
Theorem window_slice_spans_at_most_window (ts ys : list Q) (W : Q) :
  ts <> [] ->
  ascending ts ->
  Forall (fun t => 0 <= t) ts ->
  0 <= W ->
  snd (window_slice ts ys (last ts 0) W) <> [] /\
  last (snd (window_slice ts ys (last ts 0) W)) 0 = last ts 0 /\
  last (snd (window_slice ts ys (last ts 0) W)) 0
  - hd 0 (snd (window_slice ts ys (last ts 0) W)) <= W.
Proof.
  intros Hne Ha Hpos HW. unfold window_slice. cbn [snd].
  set (key := py_max 0 (last ts 0 - W)).
  destruct (searchsorted_split ts key Ha) as (Hn & Hpre & Hsuf).
  assert (Hlast0 : 0 <= last ts 0).
  { rewrite Forall_forall in Hpos. apply Hpos. apply last_In. exact Hne. }
  assert (Hkey : key <= last ts 0).
  { unfold key, py_max. destruct (Qltb 0 (last ts 0 - W)); lra. }
  assert (Hlt : (searchsorted ts key < length ts)%nat).
  { destruct (Nat.eq_dec (searchsorted ts key) (length ts)) as [E|E]; [|lia].
    exfalso. rewrite E, firstn_all in Hpre.
    rewrite Forall_forall in Hpre.
    pose proof (Hpre _ (last_In ts Hne)) as Hc. cbv beta in Hc. lra. }
  assert (Hne' : skipn (searchsorted ts key) ts <> []).
  { intro Hnil. apply (f_equal (@length Q)) in Hnil.
    rewrite length_skipn in Hnil. simpl in Hnil. lia. }
  split; [exact Hne'|].
  split; [apply last_skipn; exact Hlt|].
  rewrite (last_skipn ts _ Hlt).
  destruct (skipn (searchsorted ts key) ts) as [|t0 rest]; [congruence|].
  inversion Hsuf as [|x l Ht0 _]; subst. cbn [hd].
  pose proof (py_max_ge_r 0 (last ts 0 - W)) as Hk. fold key in Hk. lra.
Qed.

Lemma window_slice_spans_at_most_window_witness :
  snd (window_slice [0; 1; 2; 3] [10; 20; 30; 40]
         (last [0; 1; 2; 3] 0) (3 # 2)) <> [] /\
  last (snd (window_slice [0; 1; 2; 3] [10; 20; 30; 40]
               (last [0; 1; 2; 3] 0) (3 # 2))) 0
  = last [0; 1; 2; 3] 0 /\
  last (snd (window_slice [0; 1; 2; 3] [10; 20; 30; 40]
               (last [0; 1; 2; 3] 0) (3 # 2))) 0
  - hd 0 (snd (window_slice [0; 1; 2; 3] [10; 20; 30; 40]
                 (last [0; 1; 2; 3] 0) (3 # 2))) <= 3 # 2.
Proof.
  apply (window_slice_spans_at_most_window [0; 1; 2; 3] [10; 20; 30; 40] (3 # 2)).
  - discriminate.
  - simpl. repeat split; vm_compute; discriminate.
  - repeat constructor; vm_compute; discriminate.
  - vm_compute. discriminate.
Defined.

(** ** More on the band power *)

Lemma mask_select_ragged (idx : list bool) (a : list Q) :
  length idx <> length a -> mask_select idx a = Raise IndexError.
Proof.
  revert a. induction idx as [|b idx IH]; intros a Hlen.
  - destruct a; [simpl in Hlen; congruence | reflexivity].
  - destruct a as [|x a]; [reflexivity|].
    cbn [mask_select]. rewrite IH; [reflexivity|].
    simpl in Hlen. congruence.
Qed.

Lemma np_any_band_mask_Exists (freqs : list Q) (fmin fmax : Q) :
  np_any (band_mask freqs fmin fmax) = true <->
  Exists (fun f => fmin <= f /\ f <= fmax) freqs.
Proof.
  unfold np_any, band_mask. rewrite existsb_exists, Exists_exists. split.
  - intros (b & Hin & Hb). subst b. apply in_map_iff in Hin.
    destruct Hin as (f & Hf & Hin). exists f. split; [exact Hin|].
    apply in_band_iff. exact Hf.
  - intros (f & Hin & Hf). exists true. split; [|reflexivity].
    apply in_map_iff. exists f. split; [|exact Hin].
    apply in_band_iff. exact Hf.
Qed.

(** X6.  On a PSD with another number of powers than of frequencies,
    [bandpower] raises [IndexError] as soon as one frequency lies in the
    band, and still returns [0] when none does. *)
Theorem bandpower_length_mismatch (freqs psd : list Q) (fmin fmax : Q) :
  length freqs <> length psd ->
  (Exists (fun f => fmin <= f /\ f <= fmax) freqs ->
   bandpower freqs psd fmin fmax = Raise IndexError) /\
  (~ Exists (fun f => fmin <= f /\ f <= fmax) freqs ->
   bandpower freqs psd fmin fmax = Ok 0).
Proof.
  intro Hlen. unfold bandpower. split; intro H.
  - apply np_any_band_mask_Exists in H. rewrite H. cbn [negb].
    rewrite mask_select_ragged; [reflexivity|].
    unfold band_mask. rewrite length_map. exact Hlen.
  - destruct (np_any (band_mask freqs fmin fmax)) eqn:E; [|reflexivity].
    apply np_any_band_mask_Exists in E. contradiction.
Qed.

Lemma bandpower_length_mismatch_witness :
  (Exists (fun f => 1 <= f /\ f <= 3) [0; 1; 2; 3; 4] ->
   bandpower [0; 1; 2; 3; 4] [1; 1; 1; 1] 1 3 = Raise IndexError) /\
  (~ Exists (fun f => 1 <= f /\ f <= 3) [0; 1; 2; 3; 4] ->
   bandpower [0; 1; 2; 3; 4] [1; 1; 1; 1] 1 3 = Ok 0).
Proof.
  apply (bandpower_length_mismatch [0; 1; 2; 3; 4] [1; 1; 1; 1] 1 3).
  simpl. lia.
Defined.

Lemma bins_in_band_fst (freqs psd : list Q) (fmin fmax : Q) :
  length freqs = length psd ->
  map fst (bins_in_band freqs psd fmin fmax) = filter (in_band fmin fmax) freqs.
Proof.
  revert psd. induction freqs as [|f freqs IH]; intros psd Hlen; [reflexivity|].
  destruct psd as [|p psd]; [discriminate Hlen|].
  injection Hlen as Hlen. unfold bins_in_band in *.
  cbn [combine filter fst].
  destruct (in_band fmin fmax f); cbn [map fst]; rewrite (IH psd Hlen);
    reflexivity.
Qed.

Lemma bins_in_band_snd_Forall (P : Q -> Prop) (freqs psd : list Q)
    (fmin fmax : Q) :
  Forall P psd ->
  Forall (fun b => P (snd b)) (bins_in_band freqs psd fmin fmax).
Proof.
  intro Hp. apply Forall_forall. intros [f p] Hin. cbn [snd].
  apply filter_In in Hin. destruct Hin as [Hin _].
  rewrite Forall_forall in Hp. apply Hp.
  exact (in_combine_r _ _ _ _ Hin).
Qed.

Lemma trapezoid_flat (c : Q) (bins : list (Q * Q)) :
  Forall (fun b => snd b == c) bins ->
  trapezoid bins == c * (last (map fst bins) 0 - hd 0 (map fst bins)).
Proof.
  induction bins as [|[x0 y0] rest IH]; intro Hc; [cbn; ring|].
  destruct rest as [|[x1 y1] rest']; [cbn; ring|].
  change (trapezoid ((x0, y0) :: (x1, y1) :: rest'))
    with ((x1 - x0) * (y1 + y0) / 2 + trapezoid ((x1, y1) :: rest')).
  inversion Hc as [|b l Hy0 Hc']; subst.
  inversion Hc' as [|b l Hy1 _]; subst.
  cbn [snd] in Hy0, Hy1.
  rewrite (IH Hc').
  change (last (map fst ((x0, y0) :: (x1, y1) :: rest')) 0)
    with (last (map fst ((x1, y1) :: rest')) 0).
  cbn [map fst hd]. rewrite Hy0, Hy1. field.
Qed.

(** X7.  On a PSD whose power is the same [c] in every bin, the band
    power is [c] times the distance between the first and the last bin
    frequency inside the band: the width of the band is counted only
    between its outermost bins. *)
Theorem bandpower_flat_density (freqs psd : list Q) (fmin fmax c : Q) :
  length freqs = length psd ->
  Forall (fun p => p == c) psd ->
  exists r,
    bandpower freqs psd fmin fmax = Ok r /\
    r == c * (last (filter (in_band fmin fmax) freqs) 0
              - hd 0 (filter (in_band fmin fmax) freqs)).
Proof.
  intros Hlen Hc.
  rewrite (bandpower_bins _ _ _ _ Hlen).
  rewrite <- (bins_in_band_fst freqs psd fmin fmax Hlen).
  pose proof (bins_in_band_snd_Forall (fun p => p == c) freqs psd fmin fmax Hc)
    as Hall.
  destruct (bins_in_band freqs psd fmin fmax) as [|b bins] eqn:E.
  - exists 0. split; [reflexivity|]. cbn. ring.
  - eexists. split; [reflexivity|].
    rewrite np_trapz_trapezoid. apply trapezoid_flat. exact Hall.
Qed.

Lemma bandpower_flat_density_witness :
  exists r,
    bandpower [0; 1; 2; 3; 4] [5; 5; 5; 5; 5] (1 # 2) (7 # 2) = Ok r /\
    r == 5 * (last (filter (in_band (1 # 2) (7 # 2)) [0; 1; 2; 3; 4]) 0
              - hd 0 (filter (in_band (1 # 2) (7 # 2)) [0; 1; 2; 3; 4])).
Proof.
  apply (bandpower_flat_density [0; 1; 2; 3; 4] [5; 5; 5; 5; 5]
           (1 # 2) (7 # 2) 5).
  - reflexivity.
  - repeat constructor; reflexivity.
Defined.

Lemma trapezoid_le_width (M : Q) (bins : list (Q * Q)) :
  StronglySorted (fun b1 b2 : Q * Q => fst b1 <= fst b2) bins ->
  Forall (fun b => snd b <= M) bins ->
  trapezoid bins <= M * (last (map fst bins) 0 - hd 0 (map fst bins)).
Proof.
  induction bins as [|[x0 y0] rest IH]; intros Hs Hp;
    [cbn; setoid_replace (M * (0 - 0)) with 0 by ring; apply Qle_refl|].
  destruct rest as [|[x1 y1] rest'];
    [cbn; setoid_replace (M * (x0 - x0)) with 0 by ring; apply Qle_refl|].
  change (trapezoid ((x0, y0) :: (x1, y1) :: rest'))
    with ((x1 - x0) * (y1 + y0) / 2 + trapezoid ((x1, y1) :: rest')).
  change (last (map fst ((x0, y0) :: (x1, y1) :: rest')) 0)
    with (last (map fst ((x1, y1) :: rest')) 0).
  inversion Hs as [|b l Hs' Hall]; subst.
  inversion Hp as [|b l Hy0 Hp']; subst.
  pose proof (IH Hs' Hp') as Hrest.
  inversion Hall as [|b l Hx01 _]; subst.
  inversion Hp' as [|b l Hy1 _]; subst.
  cbn [fst snd map hd] in *.
  assert (Hstep : (x1 - x0) * (y1 + y0) / 2 <= M * (x1 - x0)).
  { apply Qle_shift_div_r; [reflexivity|].
    setoid_replace (M * (x1 - x0) * 2) with (2 * M * (x1 - x0)) by ring.
    setoid_replace ((x1 - x0) * (y1 + y0)) with ((y1 + y0) * (x1 - x0)) by ring.
    apply Qmult_le_compat_r; lra. }
  lra.
Qed.

Lemma bins_in_band_range (freqs psd : list Q) (fmin fmax : Q) :
  Forall (fun b => fmin <= fst b /\ fst b <= fmax)
    (bins_in_band freqs psd fmin fmax).
Proof.
  apply Forall_forall. intros [f p] Hin. cbn [fst].
  apply filter_In in Hin. destruct Hin as [_ Hin]. cbn [fst] in Hin.
  apply in_band_iff. exact Hin.
Qed.

(** X8.  In exact arithmetic: on a PSD with ascending frequencies and
    powers at most [M], the band power is at most [M] times the width of
    the band.  (In floating point the rounded products and sums can pass
    the bound by an ulp.) *)
Theorem bandpower_at_most_peak_times_width
    (freqs psd : list Q) (fmin fmax M : Q) :
  length freqs = length psd ->
  ascending freqs ->
  Forall (fun p => p <= M) psd ->
  0 <= M ->
  fmin <= fmax ->
  exists r, bandpower freqs psd fmin fmax = Ok r /\ r <= M * (fmax - fmin).
Proof.
  intros Hlen Ha Hp HM Hband.
  rewrite (bandpower_bins _ _ _ _ Hlen).
  assert (Hs : StronglySorted (fun b1 b2 : Q * Q => fst b1 <= fst b2)
                 (bins_in_band freqs psd fmin fmax)).
  { apply filter_ordered. apply combine_ordered. exact Ha. }
  pose proof (bins_in_band_snd_Forall (fun p => p <= M) freqs psd fmin fmax Hp)
    as Hq.
  pose proof (bins_in_band_range freqs psd fmin fmax) as Hr.
  assert (Hwidth : 0 <= M * (fmax - fmin)).
  { apply Qmult_le_0_compat; lra. }
  destruct (bins_in_band freqs psd fmin fmax) as [|[x0 y0] bins] eqn:E.
  - exists 0. split; [reflexivity | exact Hwidth].
  - eexists. split; [reflexivity|].
    rewrite np_trapz_trapezoid.
    apply Qle_trans with
      (M * (last (map fst ((x0, y0) :: bins)) 0
            - hd 0 (map fst ((x0, y0) :: bins)))).
    + apply trapezoid_le_width; assumption.
    + assert (Hlast : last (map fst ((x0, y0) :: bins)) 0 <= fmax).
      { assert (Hin : In (last (map fst ((x0, y0) :: bins)) 0)
                         (map fst ((x0, y0) :: bins))).
        { apply last_In. discriminate. }
        apply in_map_iff in Hin. destruct Hin as (b & Hb & Hin).
        rewrite Forall_forall in Hr. destruct (Hr b Hin) as [_ Hmax].
        rewrite <- Hb. exact Hmax. }
      inversion Hr as [|b l [Hmin _] _]; subst. cbn [fst] in Hmin.
      cbn [map fst hd] in *.
      setoid_replace (M * (fmax - fmin)) with (M * fmax - M * fmin) by ring.
      setoid_replace (M * (last (x0 :: map fst bins) 0 - x0))
        with (M * last (x0 :: map fst bins) 0 - M * x0) by ring.
      assert (H1 : M * last (x0 :: map fst bins) 0 <= M * fmax).
      { rewrite !(Qmult_comm M). apply Qmult_le_compat_r; assumption. }
      assert (H2 : M * fmin <= M * x0).
      { rewrite !(Qmult_comm M). apply Qmult_le_compat_r; assumption. }
      lra.
Qed.

Lemma bandpower_at_most_peak_times_width_witness :
  exists r,
    bandpower [0; 1; 2; 3; 4] [1; 2; 3; 4; 5] 1 3 = Ok r /\ r <= 5 * (3 - 1).
Proof.
  apply (bandpower_at_most_peak_times_width
           [0; 1; 2; 3; 4] [1; 2; 3; 4; 5] 1 3 5).
  - reflexivity.
  - simpl. repeat split; vm_compute; discriminate.
  - repeat constructor; vm_compute; discriminate.
  - vm_compute. discriminate.
  - vm_compute. discriminate.
Defined.

Lemma bins_in_band_scale (c : Q) (freqs psd : list Q) (fmin fmax : Q) :
  bins_in_band freqs (map (Qmult c) psd) fmin fmax
  = map (fun b => (fst b, c * snd b)) (bins_in_band freqs psd fmin fmax).
Proof.
  revert psd. induction freqs as [|f freqs IH]; intros psd; [reflexivity|].
  destruct psd as [|p psd]; [reflexivity|].
  unfold bins_in_band in *. cbn [map combine filter fst].
  destruct (in_band fmin fmax f); cbn [map fst snd]; rewrite IH; reflexivity.
Qed.

Lemma trapezoid_scale (c : Q) (bins : list (Q * Q)) :
  trapezoid (map (fun b => (fst b, c * snd b)) bins) == c * trapezoid bins.
Proof.
  induction bins as [|[x0 y0] rest IH]; [cbn; ring|].
  destruct rest as [|[x1 y1] rest']; [cbn; ring|].
  change (trapezoid ((x0, y0) :: (x1, y1) :: rest'))
    with ((x1 - x0) * (y1 + y0) / 2 + trapezoid ((x1, y1) :: rest')).
  change (trapezoid (map (fun b => (fst b, c * snd b))
                       ((x0, y0) :: (x1, y1) :: rest')))
    with ((x1 - x0) * (c * y1 + c * y0) / 2
          + trapezoid (map (fun b => (fst b, c * snd b)) ((x1, y1) :: rest'))).
  rewrite IH. field.
Qed.

(** X9.  Multiplying every power of a PSD by [c] multiplies every band
    power by [c]. *)
Theorem bandpower_scales_with_power (freqs psd : list Q) (fmin fmax c : Q) :
  length freqs = length psd ->
  exists r r',
    bandpower freqs psd fmin fmax = Ok r /\
    bandpower freqs (map (Qmult c) psd) fmin fmax = Ok r' /\
    r' == c * r.
Proof.
  intro Hlen.
  assert (Hlen' : length freqs = length (map (Qmult c) psd))
    by (rewrite length_map; exact Hlen).
  rewrite (bandpower_bins _ _ _ _ Hlen), (bandpower_bins _ _ _ _ Hlen').
  rewrite bins_in_band_scale.
  destruct (bins_in_band freqs psd fmin fmax) as [|b bins] eqn:E.
  - exists 0, 0. cbn [map]. split; [reflexivity|]. split; [reflexivity|]. ring.
  - exists (np_trapz (map snd (b :: bins)) (map fst (b :: bins))),
           (np_trapz
              (map snd (map (fun b0 => (fst b0, c * snd b0)) (b :: bins)))
              (map fst (map (fun b0 => (fst b0, c * snd b0)) (b :: bins)))).
    split; [reflexivity|]. split; [reflexivity|].
    rewrite !np_trapz_trapezoid. apply trapezoid_scale.
Qed.

Lemma bandpower_scales_with_power_witness :
  exists r r',
    bandpower [0; 1; 2; 3; 4] [1; 2; 3; 4; 5] 1 3 = Ok r /\
    bandpower [0; 1; 2; 3; 4] (map (Qmult 3) [1; 2; 3; 4; 5]) 1 3 = Ok r' /\
    r' == 3 * r.
Proof.
  apply (bandpower_scales_with_power [0; 1; 2; 3; 4] [1; 2; 3; 4; 5] 1 3 3).
  reflexivity.
Defined.

(** ** More on the loop *)

Lemma Qleb_false_lt (a b : Q) : Qleb a b = false -> b < a.
Proof.
  unfold Qleb. intro H. apply Qnot_le_lt. intro Hle.
  apply Qle_bool_iff in Hle. congruence.
Qed.

Lemma getitem_last_snoc {A : Type} (l : list A) (x : A) :
  getitem_last (l ++ [x]) = Ok x.
Proof.
  induction l as [|a l IH]; [reflexivity|].
  destruct l as [|b l]; [reflexivity|].
  cbn [app] in *. rewrite getitem_last_cons. exact IH.
Qed.

Lemma combine_unzip {A B : Type} (l : list A) (m : list B) :
  length l = length m ->
  map fst (combine l m) = l /\ map snd (combine l m) = m.
Proof.
  revert m. induction l as [|x l IH]; intros m Hlen.
  - destruct m; [split; reflexivity | discriminate Hlen].
  - destruct m as [|y m]; [discriminate Hlen|].
    injection Hlen as Hlen. destruct (IH m Hlen) as [H1 H2].
    cbn [combine map fst snd]. rewrite H1, H2. split; reflexivity.
Qed.

(** The buffer after a run from the start is made of the samples of the
    iterations that ran. *)
Lemma run_samples (welch : list Q -> Q -> nat -> list Q * list Q)
    (a : args) (t_start : Q) (ticks : list tick) :
  exists n,
    (n <= length ticks)%nat /\
    ts (fst (run welch a t_start ticks init))
    = map fst (acquired t_start (firstn n ticks)) /\
    ys (fst (run welch a t_start ticks init))
    = map snd (acquired t_start (firstn n ticks)) /\
    (snd (run welch a t_start ticks init) = Interrupted -> n = length ticks).
Proof.
  destruct (run_buffer welch a t_start ticks init eq_refl)
    as (n & Hn & Hlen & Hc & Hi).
  exists n. split; [exact Hn|].
  destruct (combine_unzip _ _ Hlen) as [H1 H2].
  cbn [init ts ys combine app] in Hc.
  rewrite Hc in H1, H2.
  split; [symmetry; exact H1|]. split; [symmetry; exact H2 | exact Hi].
Qed.




Lemma acquired_single (t_start : Q) (tk : tick) :
  (reading tk = None /\ acquired t_start [tk] = []) \/
  (exists v, reading tk = Some v /\
             acquired t_start [tk] = [(clock_sample tk - t_start, v * 1023)]).
Proof.
  unfold acquired. destruct (reading tk) as [v|]; [right | left]; eauto.
Qed.

(** A run that leaves by [break] does so on a sample at or past the
    duration, and every sample before it is under the duration. *)
Lemma run_break_buffer (welch : list Q -> Q -> nat -> list Q * list Q)
    (a : args) (t_start : Q) (ticks : list tick) (s : state) :
  Forall (fun t => t < duration a) (ts s) ->
  snd (run welch a t_start ticks s) = Break ->
  exists pre t,
    ts (fst (run welch a t_start ticks s)) = pre ++ [t] /\
    duration a <= t /\
    Forall (fun u => u < duration a) pre.
Proof.
  revert s. induction ticks as [|tk rest IH]; intros s Hs Hb;
    [discriminate Hb|].
  cbn [run] in *.
  destruct (iteration welch a t_start tk s) as [s' o] eqn:Hit.
  destruct (iteration_effect welch a t_start tk s s' o Hit) as (Hts & _ & _).
  destruct (iteration_outcome welch a t_start tk s s' o Hit)
    as [[Ho Hf] | [[Ho Hf] | [e Ho]]]; subst o.
  - (* break in this iteration *)
    cbn [fst]. apply finished_true_iff in Hf.
    destruct Hf as (_ & t_last & Hlast & Hle).
    destruct (acquired_single t_start tk) as [[_ Hacq] | (v & _ & Hacq)];
      rewrite Hacq in Hts; cbn [map fst] in Hts.
    + exfalso. rewrite app_nil_r in Hts. rewrite Hts in Hlast.
      assert (Hne : ts s <> [])
        by (destruct (ts s); [discriminate Hlast | congruence]).
      rewrite (getitem_last_default (ts s) 0 Hne) in Hlast.
      injection Hlast as Hlast.
      rewrite Forall_forall in Hs.
      pose proof (Hs _ (last_In (ts s) Hne)) as Hc. cbv beta in Hc.
      rewrite Hlast in Hc. apply (Qlt_not_le _ _ Hc Hle).
    + rewrite Hts, getitem_last_snoc in Hlast. injection Hlast as Hlast.
      exists (ts s), (clock_sample tk - t_start).
      split; [exact Hts|]. split; [rewrite Hlast; exact Hle | exact Hs].
  - (* the loop goes on *)
    apply IH; [|exact Hb].
    rewrite finished_value in Hf. injection Hf as Hf.
    destruct (acquired_single t_start tk) as [[_ Hacq] | (v & _ & Hacq)];
      rewrite Hacq in Hts; cbn [map fst] in Hts.
    + rewrite app_nil_r in Hts. rewrite Hts. exact Hs.
    + rewrite Hts. apply Forall_app. split; [exact Hs|].
      constructor; [|constructor].
      destruct (truthy (duration a)) eqn:Ht.
      * assert (Hne : nonempty (ts s') = true)
          by (rewrite Hts; destruct (ts s); reflexivity).
        rewrite Hne in Hf. cbn [andb] in Hf.
        apply Qleb_false_lt in Hf.
        rewrite Hts, last_last in Hf. exact Hf.
      * exfalso. clear IH Hf.
        assert (Hnever : forall l s0,
                   snd (run welch a t_start l s0) <> Break).
        { induction l as [|tk0 l IHl]; intros s0; [discriminate|].
          cbn [run].
          destruct (iteration welch a t_start tk0 s0) as [s1 o1] eqn:Hit1.
          destruct (iteration_outcome welch a t_start tk0 s0 s1 o1 Hit1)
            as [[Ho1 Hf1] | [[Ho1 Hf1] | [e1 Ho1]]]; subst o1.
          - rewrite finished_value, Ht in Hf1. discriminate Hf1.
          - apply IHl.
          - discriminate. }
        exact (Hnever rest s' Hb).
  - discriminate Hb.
Qed.

(** X11.  A run from the start that leaves the loop by [break] has
    recorded exactly one sample at or past the duration, the newest one:
    every earlier timestamp is under the duration. *)
Theorem break_on_first_sample_past_duration
    (welch : list Q -> Q -> nat -> list Q * list Q)
    (a : args) (t_start : Q) (ticks : list tick) :
  snd (run welch a t_start ticks init) = Break ->
  exists pre t,
    ts (fst (run welch a t_start ticks init)) = pre ++ [t] /\
    duration a <= t /\
    Forall (fun u => u < duration a) pre.
Proof.
  intro Hb. apply run_break_buffer; [constructor | exact Hb].
Qed.

Lemma break_on_first_sample_past_duration_witness :
  exists pre t,
    ts (fst (run welch_flat args_1s 1000
               [sample (1 # 2) 1000.2; sample 1 1001.5; sample 1 1001.6]
               init)) = pre ++ [t] /\
    duration args_1s <= t /\
    Forall (fun u => u < duration args_1s) pre.
Proof.
  apply (break_on_first_sample_past_duration welch_flat args_1s 1000
           [sample (1 # 2) 1000.2; sample 1 1001.5; sample 1 1001.6]).
  reflexivity.
Defined.

(** ** Clocks, readings and the buffer *)

Lemma clock_ascending_firstn (lo : Q) (ticks : list tick) (n : nat) :
  clock_ascending lo ticks -> clock_ascending lo (firstn n ticks).
Proof.
  revert lo n. induction ticks as [|tk rest IH]; intros lo n H.
  - rewrite firstn_nil. exact I.
  - destruct n as [|n]; [exact I|].
    destruct H as [H1 H2]. cbn [firstn clock_ascending].
    split; [exact H1 | apply IH; exact H2].
Qed.


Lemma acquired_ascending (t_start lo x : Q) (ticks : list tick) :
  clock_ascending lo ticks -> x <= lo - t_start ->
  ascending (x :: map fst (acquired t_start ticks)).
Proof.
  revert lo x. induction ticks as [|tk rest IH]; intros lo x Hc Hx;
    [exact I|].
  destruct Hc as [Hlo Hc]. cbn [acquired].
  destruct (reading tk) as [v|].
  - cbn [map fst]. split; [lra|].
    apply (IH (clock_sample tk)); [exact Hc | lra].
  - apply (IH (clock_sample tk)); [exact Hc | lra].
Qed.


(** X12.  When the clock read at line 68 starts at or after [t_start] and
    never runs backwards, the timestamps in the buffer after any run are
    ascending and not below zero: what the window selection relies on. *)
Theorem monotone_clock_gives_ascending_timestamps
    (welch : list Q -> Q -> nat -> list Q * list Q)
    (a : args) (t_start : Q) (ticks : list tick) :
  clock_ascending t_start ticks ->
  ascending (ts (fst (run welch a t_start ticks init))) /\
  Forall (fun t => 0 <= t) (ts (fst (run welch a t_start ticks init))).
Proof.
  intro Hc.
  destruct (run_samples welch a t_start ticks) as (n & _ & Hts & _).
  rewrite Hts.
  assert (H0 : ascending
                 (0 :: map fst (acquired t_start (firstn n ticks)))).
  { apply (acquired_ascending t_start t_start).
    - apply clock_ascending_firstn. exact Hc.
    - lra. }
  split.
  - exact (ascending_tail _ _ H0).
  - exact (ascending_head_Forall _ _ H0).
Qed.

Lemma monotone_clock_gives_ascending_timestamps_witness :
  ascending (ts (fst (run welch_flat args_1s 1000
                        [sample (1 # 2) 1000.2; silent 1000.3;
                         sample 1 1000.3] init))) /\
  Forall (fun t => 0 <= t)
    (ts (fst (run welch_flat args_1s 1000
                [sample (1 # 2) 1000.2; silent 1000.3;
                 sample 1 1000.3] init))).
Proof.
  apply (monotone_clock_gives_ascending_timestamps welch_flat args_1s 1000
           [sample (1 # 2) 1000.2; silent 1000.3; sample 1 1000.3]).
  simpl. repeat split; vm_compute; discriminate.
Defined.




Lemma acquired_values_in_range (t_start : Q) (ticks : list tick) :
  Forall (fun tk => forall v, reading tk = Some v -> 0 <= v /\ v <= 1) ticks ->
  Forall (fun y => 0 <= y /\ y <= 1023) (map snd (acquired t_start ticks)).
Proof.
  induction 1 as [|tk rest Htk _ IH]; [constructor|].
  cbn [acquired]. destruct (reading tk) as [v|] eqn:E; [|exact IH].
  cbn [map snd]. constructor; [|exact IH].
  destruct (Htk v eq_refl) as [H0 H1]. split; lra.
Qed.

(** X14.  When every reading of the sensor lies in [[0, 1]], every value
    in the buffer after any run, and so every value exported, lies in
    [[0, 1023]]. *)
Theorem readings_scaled_to_adc_range
    (welch : list Q -> Q -> nat -> list Q * list Q)
    (a : args) (t_start : Q) (ticks : list tick) :
  Forall (fun tk => forall v, reading tk = Some v -> 0 <= v /\ v <= 1) ticks ->
  Forall (fun y => 0 <= y /\ y <= 1023)
    (ys (fst (run welch a t_start ticks init))).
Proof.
  intro Hr.
  destruct (run_samples welch a t_start ticks) as (n & _ & _ & Hys & _).
  rewrite Hys. apply acquired_values_in_range.
  apply Forall_firstn. exact Hr.
Qed.

Lemma readings_scaled_to_adc_range_witness :
  Forall (fun y => 0 <= y /\ y <= 1023)
    (ys (fst (run welch_flat args_1s 1000
                [sample (1 # 2) 1000.2; silent 1000.3; sample 1 1000.4]
                init))).
Proof.
  apply (readings_scaled_to_adc_range welch_flat args_1s 1000
           [sample (1 # 2) 1000.2; silent 1000.3; sample 1 1000.4]).
  repeat constructor; cbn [reading sample silent] in *;
    try discriminate;
    match goal with H : Some _ = Some _ |- _ => injection H as <- end;
    vm_compute; discriminate.
Defined.

(** ** The throttle, the pacing and the export *)

Lemma cons_neq_self {A : Type} (x : A) (l : list A) : x :: l <> l.
Proof.
  intro H. apply (f_equal (@length A)) in H. simpl in H. lia.
Qed.

Lemma pace_ok_accepted (a : args) (s s2 : state) :
  pace a s = Ok s2 -> sleep_accepted a.
Proof.
  intro Hok.
  destruct (Qlt_le_dec 0 (target_hz a)) as [Hpos | Hle]; [|left; exact Hle].
  unfold pace in Hok. pose proof Hpos as Hb. apply Qltb_true in Hb.
  rewrite Hb, (py_div_pos _ _ Hpos) in Hok. cbn [bind] in Hok.
  apply (py_sleep_accepted a Hpos).
  destruct (py_sleep (py_max 0 (1 / target_hz a - 0.0005))) as [[]|e];
    [reflexivity | discriminate Hok].
Qed.

(** X15.  With a PSD estimator of the right shape and well-shaped locals,
    a pass of the loop redraws exactly when its pacing sleep is one that
    [time.sleep] accepts, more than 0.1 s have gone by on the clock since
    the last redraw, and the buffer, with this pass's sample, holds at
    least 3 samples; the redraw then records the clock in [last_redraw]. *)
Theorem redraw_exactly_when_gate_open
    (welch : list Q -> Q -> nat -> list Q * list Q)
    (a : args) (t_start : Q) (tk : tick) (s s' : state) (o : outcome) :
  psd_shaped welch ->
  well_shaped s ->
  iteration welch a t_start tk s = (s', o) ->
  (sleep_accepted a /\
   0.1 < clock_now tk - last_redraw s /\ (3 <= length (ts s'))%nat <->
   publish_times (log s') = clock_now tk :: publish_times (log s)) /\
  (publish_times (log s') = clock_now tk :: publish_times (log s) ->
   last_redraw s' = clock_now tk).
Proof.
  intros Hw Hs Hit.
  destruct (iteration_effect welch a t_start tk s s' o Hit)
    as (Hts & Hys & Heff).
  assert (Hopen : sleep_accepted a ->
                  0.1 < clock_now tk - last_redraw s ->
                  (3 <= length (ts s'))%nat ->
                  publish_times (log s')
                  = clock_now tk :: publish_times (log s) /\
                  last_redraw s' = clock_now tk).
  { intros Hacc Hgap Hn.
    destruct Hs as [Hlen Hbars].
    unfold iteration in Hit.
    destruct (acquire_ts t_start tk s) as [Hts1 Hys1].
    destruct (acquire_buffer t_start tk s) as (_ & Hlr1 & Hb1 & Hlog1).
    destruct (pace_ok a (acquire t_start tk s) Hacc)
      as (s2 & Hpace & Hts2 & Hys2 & Hlr2 & Hb2 & Hpt2 & _).
    rewrite Hpace in Hit.
    assert (Hs2 : well_shaped s2).
    { split.
      - rewrite Hts2, Hys2, Hts1, Hys1, !length_app, !length_map, Hlen.
        reflexivity.
      - rewrite Hb2, Hb1. exact Hbars. }
    assert (Htseq : ts s2 = ts s') by (rewrite Hts2, Hts1, Hts; reflexivity).
    assert (Hgate : gate (clock_now tk) s2 = true).
    { unfold gate. rewrite Hlr2, Hlr1, Htseq. apply andb_true_iff. split.
      - apply Qltb_true. exact Hgap.
      - apply Nat.ltb_lt. lia. }
    rewrite Hgate in Hit.
    assert (Hne : ts s2 <> []).
    { rewrite Htseq. destruct (ts s'); [simpl in Hn; lia | congruence]. }
    destruct (redraw_total welch a (clock_now tk) s2 Hw Hs2 Hne)
      as (s3 & Hred & _).
    rewrite Hred, finished_value in Hit.
    destruct (redraw_shape welch a _ s2 s3 Hred) as (_ & _ & Hlr3 & Hpt3 & _).
    assert (Hs' : s' = s3).
    { destruct (truthy (duration a) && nonempty (ts s3)
                && Qleb (duration a) (last (ts s3) 0));
        injection Hit as Hit _; congruence. }
    subst s3. rewrite Hpt3, Hpt2, Hlog1. split; [reflexivity | exact Hlr3]. }
  assert (Hpaced : publish_times (log s')
                   = clock_now tk :: publish_times (log s) ->
                   sleep_accepted a).
  { intro Hpub.
    destruct (pace a (acquire t_start tk s)) as [s2|e] eqn:Hpace.
    - exact (pace_ok_accepted a _ s2 Hpace).
    - exfalso. unfold iteration in Hit. rewrite Hpace in Hit.
      injection Hit as Hit _. subst s'.
      destruct (acquire_buffer t_start tk s) as (_ & _ & _ & Hlog1).
      rewrite Hlog1 in Hpub. symmetry in Hpub.
      exact (cons_neq_self _ _ Hpub). }
  split; [split|].
  - intros (Hacc & Hgap & Hn). apply Hopen; assumption.
  - intro Hpub. split; [exact (Hpaced Hpub)|].
    destruct Heff as [(_ & Hpt & _) | (Hgap & Hn & _)].
    + rewrite Hpt in Hpub. symmetry in Hpub.
      exfalso. exact (cons_neq_self _ _ Hpub).
    + split; assumption.
  - intro Hpub.
    destruct Heff as [(_ & Hpt & _) | (Hgap & Hn & Hlr & _)].
    + rewrite Hpt in Hpub. symmetry in Hpub.
      exfalso. exact (cons_neq_self _ _ Hpub).
    + exact Hlr.
Qed.

Lemma redraw_exactly_when_gate_open_witness :
  (sleep_accepted args_1s /\
   0.1 < clock_now (sample 1 1000.5) - last_redraw burst_state /\
   (3 <= length (ts (fst (iteration welch_flat args_1s 1000
                            (sample 1 1000.5) burst_state))))%nat <->
   publish_times (log (fst (iteration welch_flat args_1s 1000
                              (sample 1 1000.5) burst_state)))
   = clock_now (sample 1 1000.5) :: publish_times (log burst_state)) /\
  (publish_times (log (fst (iteration welch_flat args_1s 1000
                              (sample 1 1000.5) burst_state)))
   = clock_now (sample 1 1000.5) :: publish_times (log burst_state) ->
   last_redraw (fst (iteration welch_flat args_1s 1000
                       (sample 1 1000.5) burst_state))
   = clock_now (sample 1 1000.5)).
Proof.
  apply (redraw_exactly_when_gate_open welch_flat args_1s 1000
           (sample 1 1000.5) burst_state
           (fst (iteration welch_flat args_1s 1000 (sample 1 1000.5)
                   burst_state))
           (snd (iteration welch_flat args_1s 1000 (sample 1 1000.5)
                   burst_state))).
  - exact welch_flat_shaped.
  - split; reflexivity.
  - destruct (iteration welch_flat args_1s 1000 (sample 1 1000.5) burst_state);
      reflexivity.
Defined.




(** ** The warm-up *)

Lemma warmup_bounded_from (t0 : Q) (polls : list poll) (k : nat) :
  (k <= 300)%nat ->
  paced (t0 + 0.01 * inject_Z (Z.of_nat k)) polls ->
  match warmup t0 polls with
  | Some n => (k + n <= 300)%nat
  | None => (k + length polls <= 300)%nat
  end.
Proof.
  revert k. induction polls as [|p rest IH]; intros k Hk Hp.
  - cbn. lia.
  - destruct Hp as [Hclock Hp]. cbn [warmup length].
    destruct (w_reading p) as [v|]; [lia|].
    destruct (Qltb (w_clock p - t0) 3) eqn:E; [|lia].
    apply Qltb_true in E.
    assert (Hk' : (S k <= 300)%nat).
    { destruct (Nat.eq_dec k 300) as [E300 | E300]; [|lia].
      exfalso. subst k. change (inject_Z (Z.of_nat 300)) with 300 in Hclock.
      lra. }
    assert (Hp' : paced (t0 + 0.01 * inject_Z (Z.of_nat (S k))) rest).
    { assert (Heq : t0 + 0.01 * inject_Z (Z.of_nat k) + 0.01
                    == t0 + 0.01 * inject_Z (Z.of_nat (S k))).
      { rewrite Nat2Z.inj_succ. unfold Z.succ. rewrite inject_Z_plus.
        change (inject_Z 1) with 1. ring. }
      clear - Hp Heq. revert Hp Heq.
      generalize (t0 + 0.01 * inject_Z (Z.of_nat k) + 0.01).
      generalize (t0 + 0.01 * inject_Z (Z.of_nat (S k))).
      induction rest as [|q rest IHr]; intros lo' lo Hp Heq; [exact I|].
      destruct Hp as [H1 H2]. split; [rewrite <- Heq; exact H1|].
      apply (IHr (lo' + 0.01) (lo + 0.01)); [exact H2|].
      rewrite Heq. reflexivity. }
    specialize (IH (S k) Hk' Hp').
    destruct (warmup t0 rest) as [n|]; cbn [option_map]; lia.
Qed.

(** X18.  When every sleep of the warm-up lasts at least its 10 ms, the
    warm-up of lines 46-48 sleeps at most 300 times before the loop ends;
    while it still waits, at most 300 polls have been made. *)
Theorem warmup_sleeps_at_most_300 (t0 : Q) (polls : list poll) :
  paced t0 polls ->
  match warmup t0 polls with
  | Some n => (n <= 300)%nat
  | None => (length polls <= 300)%nat
  end.
Proof.
  intro Hp.
  assert (Hp0 : paced (t0 + 0.01 * inject_Z (Z.of_nat 0)) polls).
  { assert (Heq : t0 == t0 + 0.01 * inject_Z (Z.of_nat 0))
      by (change (inject_Z (Z.of_nat 0)) with 0; ring).
    clear - Hp Heq. revert Hp Heq.
    generalize t0 at 1 2. generalize (t0 + 0.01 * inject_Z (Z.of_nat 0)).
    induction polls as [|q rest IHr]; intros lo' lo Hp Heq; [exact I|].
    destruct Hp as [H1 H2]. split; [rewrite <- Heq; exact H1|].
    apply (IHr (lo' + 0.01) (lo + 0.01)); [exact H2|].
    rewrite Heq. reflexivity. }
  pose proof (warmup_bounded_from t0 polls 0 (Nat.le_0_l _) Hp0) as H.
  destruct (warmup t0 polls); simpl in H; exact H.
Qed.

Lemma warmup_sleeps_at_most_300_witness :
  match warmup 1000
          [ {| w_reading := None; w_clock := 1000 |};
            {| w_reading := None; w_clock := 1000.02 |};
            {| w_reading := Some (1 # 2); w_clock := 1000.03 |} ] with
  | Some n => (n <= 300)%nat
  | None =>
      (length
         [ {| w_reading := None; w_clock := 1000 |};
           {| w_reading := None; w_clock := 1000.02 |};
           {| w_reading := Some (1 # 2); w_clock := 1000.03 |} ] <= 300)%nat
  end.
Proof.
  apply (warmup_sleeps_at_most_300 1000
           [ {| w_reading := None; w_clock := 1000 |};
             {| w_reading := None; w_clock := 1000.02 |};
             {| w_reading := Some (1 # 2); w_clock := 1000.03 |} ]).
  simpl. repeat split; vm_compute; discriminate.
Defined.

(** ** Whole runs: when the loop is left, and what is exported *)

Lemma truthy_true_iff (x : Q) : truthy x = true <-> ~ x == 0.
Proof.
  unfold truthy. rewrite negb_true_iff. split.
  - intro H. apply Qeq_bool_neq. exact H.
  - intro H. destruct (Qeq_bool x 0) eqn:E; [|reflexivity].
    apply Qeq_bool_iff in E. contradiction.
Qed.

(** While every timestamp in the buffer is under the duration, the exit
    test fails. *)
Lemma finished_false_below (a : args) (s : state) :
  (truthy (duration a) = true ->
   Forall (fun t => t < duration a) (ts s)) ->
  finished a s = Ok false.
Proof.
  intro H. rewrite finished_value.
  destruct (truthy (duration a)) eqn:Ht; [|reflexivity].
  specialize (H eq_refl).
  destruct (ts s) as [|t0 rest] eqn:E; [reflexivity|].
  cbn [nonempty andb].
  assert (Hne : t0 :: rest <> []) by congruence.
  rewrite Forall_forall in H.
  pose proof (H _ (last_In (t0 :: rest) Hne)) as Hlt. cbv beta in Hlt.
  destruct (Qleb (duration a) (last (t0 :: rest) 0)) eqn:Hq; [|reflexivity].
  apply Qleb_true in Hq. exfalso. apply (Qlt_not_le _ _ Hlt Hq).
Qed.



Lemma iteration_buffer (welch : list Q -> Q -> nat -> list Q * list Q)
    (a : args) (t_start : Q) (tk : tick) (s s' : state) (o : outcome) :
  length (ts s) = length (ys s) ->
  iteration welch a t_start tk s = (s', o) ->
  length (ts s') = length (ys s') /\
  combine (ts s') (ys s') = combine (ts s) (ys s) ++ acquired t_start [tk] /\
  ts s' = ts s ++ map fst (acquired t_start [tk]).
Proof.
  intros Hlen Hit.
  destruct (iteration_effect welch a t_start tk s s' o Hit) as (Hts & Hys & _).
  split; [|split; [|exact Hts]].
  - rewrite Hts, Hys, !length_app, !length_map, Hlen. reflexivity.
  - rewrite Hts, Hys, (combine_app_same _ _ _ _ Hlen), combine_fst_snd.
    reflexivity.
Qed.

Lemma acquired_fst_below (t_start d : Q) (ticks : list tick) :
  Forall (fun p : Q * Q => fst p < d) (acquired t_start ticks) <->
  Forall (fun t => t < d) (map fst (acquired t_start ticks)).
Proof. rewrite Forall_map. reflexivity. Qed.




(** While the samples that arrive are under the duration (or the duration
    is 0), the loop goes on through every tick, raising nothing. *)
Lemma run_continues (welch : list Q -> Q -> nat -> list Q * list Q)
    (a : args) (t_start : Q) (before rest : list tick) (s : state) :
  psd_shaped welch -> sleep_accepted a -> well_shaped s ->
  (truthy (duration a) = true ->
   Forall (fun t => t < duration a) (ts s) /\
   Forall (fun p : Q * Q => fst p < duration a) (acquired t_start before)) ->
  exists s',
    run welch a t_start (before ++ rest) s = run welch a t_start rest s' /\
    well_shaped s' /\
    combine (ts s') (ys s')
    = combine (ts s) (ys s) ++ acquired t_start before /\
    ts s' = ts s ++ map fst (acquired t_start before).
Proof.
  intros Hw Hacc. revert s.
  induction before as [|tk bs IH]; intros s Hs Hbelow.
  - exists s. cbn [app acquired map]. rewrite !app_nil_r. repeat split;
      apply Hs.
  - cbn [app run].
    destruct (iteration welch a t_start tk s) as [s1 o] eqn:Hit.
    destruct (iteration_no_raise welch a t_start tk s s1 o Hw Hacc Hs Hit)
      as [Hs1 Ho].
    destruct (iteration_buffer welch a t_start tk s s1 o (proj1 Hs) Hit)
      as (_ & Hbuf & Hts).
    assert (Hsplit : acquired t_start (tk :: bs)
                     = acquired t_start [tk] ++ acquired t_start bs).
    { change (tk :: bs) with ([tk] ++ bs). apply acquired_app. }
    assert (Hbelow1 : truthy (duration a) = true ->
                      Forall (fun t => t < duration a) (ts s1) /\
                      Forall (fun p : Q * Q => fst p < duration a)
                        (acquired t_start bs)).
    { intro Ht. destruct (Hbelow Ht) as [H1 H2].
      rewrite Hsplit in H2. apply Forall_app in H2. destruct H2 as [H2 H3].
      split; [|exact H3].
      rewrite Hts. apply Forall_app. split; [exact H1|].
      apply acquired_fst_below. exact H2. }
    assert (Hfin : finished a s1 = Ok false).
    { apply finished_false_below. intro Ht. apply (Hbelow1 Ht). }
    assert (Hcont : o = Continue).
    { destruct (iteration_outcome welch a t_start tk s s1 o Hit)
        as [[Hb Hf] | [[Hc Hf] | [e He]]].
      - rewrite Hfin in Hf. discriminate Hf.
      - exact Hc.
      - destruct Ho; congruence. }
    subst o.
    destruct (IH s1 Hs1 Hbelow1) as (s' & Hrun & Hs' & Hc' & Hts').
    exists s'. split; [exact Hrun|]. split; [exact Hs'|]. split.
    + rewrite Hc', Hbuf, Hsplit, app_assoc. reflexivity.
    + rewrite Hts', Hts, Hsplit, map_app, app_assoc. reflexivity.
Qed.

(** C2, amended.  With a PSD estimator of the right shape and a pacing
    sleep that [time.sleep] accepts, a run with a positive duration leaves
    the loop by [break] at the end of the first iteration that delivers a
    sample with a timestamp at or past the duration, whatever ticks would
    follow, and the buffer then holds the samples up to that one; as long
    as no such sample arrives the run goes through every tick, however
    late the clock, and ends only by Ctrl-C.  With duration 0 every run
    goes through every tick and ends by Ctrl-C. *)
Theorem loop_exit_on_sample_timestamp
    (welch : list Q -> Q -> nat -> list Q * list Q)
    (a : args) (t_start : Q) :
  psd_shaped welch ->
  sleep_accepted a ->
  (0 < duration a ->
   (forall before tk v after,
      Forall (fun p : Q * Q => fst p < duration a)
        (acquired t_start before) ->
      reading tk = Some v ->
      duration a <= clock_sample tk - t_start ->
      snd (run welch a t_start (before ++ tk :: after) init) = Break /\
      combine (ts (fst (run welch a t_start (before ++ tk :: after) init)))
              (ys (fst (run welch a t_start (before ++ tk :: after) init)))
      = acquired t_start (before ++ [tk])) /\
   (forall ticks,
      Forall (fun p : Q * Q => fst p < duration a)
        (acquired t_start ticks) ->
      snd (run welch a t_start ticks init) = Interrupted /\
      combine (ts (fst (run welch a t_start ticks init)))
              (ys (fst (run welch a t_start ticks init)))
      = acquired t_start ticks)) /\
  (duration a == 0 ->
   forall ticks,
     snd (run welch a t_start ticks init) = Interrupted /\
     combine (ts (fst (run welch a t_start ticks init)))
             (ys (fst (run welch a t_start ticks init)))
     = acquired t_start ticks).
Proof.
  intros Hw Hacc.
  assert (Hinit : well_shaped init) by (split; reflexivity).
  assert (Hthrough : forall ticks,
             (truthy (duration a) = true ->
              Forall (fun p : Q * Q => fst p < duration a)
                (acquired t_start ticks)) ->
             snd (run welch a t_start ticks init) = Interrupted /\
             combine (ts (fst (run welch a t_start ticks init)))
                     (ys (fst (run welch a t_start ticks init)))
             = acquired t_start ticks).
  { intros ticks Hbelow.
    destruct (run_continues welch a t_start ticks [] init Hw Hacc Hinit)
      as (s' & Hrun & _ & Hc & _).
    { intro Ht. split; [constructor | exact (Hbelow Ht)]. }
    rewrite app_nil_r in Hrun. rewrite Hrun. cbn [run fst snd].
    split; [reflexivity | exact Hc]. }
  split.
  - intro Hpos. split.
    + intros before tk v after Hbelow Hv Hle.
      destruct (run_continues welch a t_start before (tk :: after) init
                  Hw Hacc Hinit)
        as (s' & Hrun & Hs' & Hc & _).
      { intros _. split; [constructor | exact Hbelow]. }
      rewrite Hrun. cbn [run].
      destruct (iteration welch a t_start tk s') as [s2 o] eqn:Hit.
      destruct (iteration_no_raise welch a t_start tk s' s2 o Hw Hacc Hs' Hit)
        as [_ Ho].
      destruct (iteration_buffer welch a t_start tk s' s2 o (proj1 Hs') Hit)
        as (_ & Hbuf & Hts).
      assert (Hacq : acquired t_start [tk]
                     = [(clock_sample tk - t_start, v * 1023)]).
      { unfold acquired. rewrite Hv. reflexivity. }
      assert (Hfin : finished a s2 = Ok true).
      { apply finished_true_iff. split.
        - intro Hz. rewrite Hz in Hpos. apply (Qlt_irrefl 0 Hpos).
        - exists (clock_sample tk - t_start). split; [|exact Hle].
          rewrite Hts, Hacq. cbn [map fst]. apply getitem_last_snoc. }
      assert (Hbreak : o = Break).
      { destruct (iteration_outcome welch a t_start tk s' s2 o Hit)
          as [[Hb Hf] | [[Hcn Hf] | [e He]]].
        - exact Hb.
        - rewrite Hfin in Hf. discriminate Hf.
        - destruct Ho; congruence. }
      subst o. cbn [fst snd]. split; [reflexivity|].
      rewrite Hbuf, Hc. cbn [init ts ys combine app].
      rewrite acquired_app. reflexivity.
    + intros ticks Hbelow. apply Hthrough. intros _. exact Hbelow.
  - intros Hzero ticks. apply Hthrough. intro Ht.
    apply truthy_true_iff in Ht. contradiction.
Qed.

Lemma loop_exit_on_sample_timestamp_witness :
  (0 < duration args_1s ->
   (forall before tk v after,
      Forall (fun p : Q * Q => fst p < duration args_1s)
        (acquired 1000 before) ->
      reading tk = Some v ->
      duration args_1s <= clock_sample tk - 1000 ->
      snd (run welch_flat args_1s 1000 (before ++ tk :: after) init) = Break /\
      combine
        (ts (fst (run welch_flat args_1s 1000 (before ++ tk :: after) init)))
        (ys (fst (run welch_flat args_1s 1000 (before ++ tk :: after) init)))
      = acquired 1000 (before ++ [tk])) /\
   (forall ticks,
      Forall (fun p : Q * Q => fst p < duration args_1s)
        (acquired 1000 ticks) ->
      snd (run welch_flat args_1s 1000 ticks init) = Interrupted /\
      combine (ts (fst (run welch_flat args_1s 1000 ticks init)))
              (ys (fst (run welch_flat args_1s 1000 ticks init)))
      = acquired 1000 ticks)) /\
  (duration args_1s == 0 ->
   forall ticks,
     snd (run welch_flat args_1s 1000 ticks init) = Interrupted /\
     combine (ts (fst (run welch_flat args_1s 1000 ticks init)))
             (ys (fst (run welch_flat args_1s 1000 ticks init)))
     = acquired 1000 ticks).
Proof.
  apply (loop_exit_on_sample_timestamp welch_flat args_1s 1000).
  - intros yw fs nperseg. unfold welch_flat. cbn [fst snd].
    rewrite !length_map. reflexivity.
  - right. vm_compute. discriminate.
Defined.

(** A run asked to last one second that gets its first late sample in the
    third iteration: it leaves there, and the fourth tick is never
    processed. *)
Example run_leaves_on_late_sample :
  run welch_flat args_1s 1000
    [sample (1 # 2) 1000.2; silent 1000.9; sample 1 1001.5;
     sample 1 1001.6] init
  = ({| ts := [1000.2 - 1000; 1001.5 - 1000];
        ys := [(1 # 2) * 1023; 1 * 1023];
        last_redraw := 0;
        bars := [0; 0; 0; 0; 0];
        log := [EvSleep (1 / 100 - 0.0005); EvSleep (1 / 100 - 0.0005);
                EvSleep (1 / 100 - 0.0005)] |}, Break).
Proof. vm_compute. reflexivity. Qed.

(** A target rate of [1e-10] asks for a sleep of about [1e10] seconds:
    the first pass of the loop takes its sample and then raises. *)
Example run_sleep_overflow :
  run welch_flat
    {| duration := 1; target_hz := 1 # 10000000000; window := 2;
       csv := ""%string |}
    1000 [sample (1 # 2) 1000.2; sample 1 1001.5] init
  = ({| ts := [1000.2 - 1000]; ys := [(1 # 2) * 1023]; last_redraw := 0;
        bars := [0; 0; 0; 0; 0]; log := [] |}, Raised OverflowError).
Proof. vm_compute. reflexivity. Qed.
